(** * csbot: the BOF argument packer ([workflow.PackBOFArguments])

    A shallow embedding of [workflow/bof_packer.go] and of the parts of the
    Go standard library it calls ([encoding/binary], [encoding/hex],
    [strconv.ParseUint], [unicode/utf8] as used by the [[]rune(s)]
    conversion, [unicode/utf16]), followed by the properties of the wire
    format.

    Conventions
    - a Go [string] is a Rocq [string] (both are sequences of 8-bit units),
      [[]byte] is [list byte]; a nil slice and an empty slice are both [[]];
    - fixed-width integers are [Z] with the wrap-around written out
      ([uint16], [uint32], [uint64]); [int] is the 64-bit [int];
    - a Go [error] is an [option]: [None] is [nil];
    - a function returning [([]byte, error)] returns a pair. *)

From Stdlib Require Import ZArith List Bool Lia String Ascii.
From Stdlib Require Import Strings.Byte.
From Stdlib Require Import Floats.SpecFloat.
Import ListNotations.

Local Open Scope string_scope.
Local Open Scope list_scope.
Local Open Scope Z_scope.

(** ** Machine integers and bytes *)

Definition uint16 (z : Z) : Z := z mod 2 ^ 16.
Definition uint32 (z : Z) : Z := z mod 2 ^ 32.
Definition uint64 (z : Z) : Z := z mod 2 ^ 64.

(** The numeric value of a byte. *)
Definition Z_of_byte (b : byte) : Z := Z.of_N (Byte.to_N b).

(** Go's conversion [byte(x)]: the low eight bits. *)
Definition byte_of_Z (z : Z) : byte :=
  match Byte.of_N (Z.to_N (z mod 256)) with
  | Some b => b
  | None => x00
  end.

(** [len(s)] as an [int]. *)
Definition len {A : Type} (l : list A) : Z := Z.of_nat (List.length l).

(** [b[i] = x].  Go panics when [i] is out of range; the packer only writes
    inside buffers it has just allocated, and this model leaves the buffer
    unchanged there. *)
Fixpoint store (b : list byte) (i : nat) (x : byte) : list byte :=
  match b, i with
  | [], _ => []
  | _ :: t, O => x :: t
  | h :: t, S j => h :: store t j x
  end.

(** [make([]byte, n)]. *)
Definition make (n : Z) : list byte := repeat x00 (Z.to_nat n).

(** ** encoding/binary *)

Module binary.

Module BigEndian.
(** [PutUint32(b, v)] on a 4-byte buffer [b]. *)
Definition PutUint32 (b : list byte) (v : Z) : list byte :=
  let b := store b 0 (byte_of_Z (Z.shiftr v 24)) in
  let b := store b 1 (byte_of_Z (Z.shiftr v 16)) in
  let b := store b 2 (byte_of_Z (Z.shiftr v 8)) in
  store b 3 (byte_of_Z v).

(** [PutUint16(b, v)] on a 2-byte buffer [b]. *)
Definition PutUint16 (b : list byte) (v : Z) : list byte :=
  let b := store b 0 (byte_of_Z (Z.shiftr v 8)) in
  store b 1 (byte_of_Z v).

(** [Uint32(b)]: the reader of the field, used to state what a prefix
    holds. *)
Definition Uint32 (b : list byte) : Z :=
  match b with
  | b0 :: b1 :: b2 :: b3 :: _ =>
      Z.lor (Z_of_byte b3)
        (Z.lor (Z.shiftl (Z_of_byte b2) 8)
           (Z.lor (Z.shiftl (Z_of_byte b1) 16) (Z.shiftl (Z_of_byte b0) 24)))
  | _ => 0
  end.

Definition Uint16 (b : list byte) : Z :=
  match b with
  | b0 :: b1 :: _ => Z.lor (Z_of_byte b1) (Z.shiftl (Z_of_byte b0) 8)
  | _ => 0
  end.
End BigEndian.

Module LittleEndian.
(** [PutUint16(b[off:], v)]: the two bytes at [off] and [off+1]. *)
Definition PutUint16 (b : list byte) (off : nat) (v : Z) : list byte :=
  let b := store b off (byte_of_Z v) in
  store b (S off) (byte_of_Z (Z.shiftr v 8)).
End LittleEndian.

End binary.

(** ** encoding/hex *)

Module hex.

Inductive error : Type :=
| ErrLength                      (* odd length hex string *)
| InvalidByteError (b : byte).   (* invalid byte *)

(** [hextable = "0123456789abcdef"], indexed by a nibble. *)
Definition hextable (n : Z) : byte :=
  if n <? 10 then byte_of_Z (48 + n) else byte_of_Z (97 + (n - 10)).

(** [reverseHexTable]: the nibble of a digit, [0xff] for any other byte. *)
Definition reverseHexTable (c : byte) : Z :=
  let z := Z_of_byte c in
  if (48 <=? z) && (z <=? 57) then z - 48
  else if (97 <=? z) && (z <=? 102) then z - 97 + 10
  else if (65 <=? z) && (z <=? 70) then z - 65 + 10
  else 255.

(** [Encode]: two digits per byte, high nibble first. *)
Fixpoint Encode (src : list byte) : list byte :=
  match src with
  | [] => []
  | v :: rest =>
      hextable (Z.shiftr (Z_of_byte v) 4)
        :: hextable (Z.land (Z_of_byte v) 15) :: Encode rest
  end.

Definition EncodeToString (src : list byte) : string :=
  string_of_list_byte (Encode src).

(** [Decode]: the loop over pairs [(src[j-1], src[j])]; returns the bytes
    decoded before any error together with the error. *)
Fixpoint Decode (src : list byte) : list byte * option error :=
  match src with
  | [] => ([], None)
  | [p] =>
      if reverseHexTable p >? 15 then ([], Some (InvalidByteError p))
      else ([], Some ErrLength)
  | p :: q :: rest =>
      let a := reverseHexTable p in
      let b := reverseHexTable q in
      if a >? 15 then ([], Some (InvalidByteError p))
      else if b >? 15 then ([], Some (InvalidByteError q))
      else
        let '(dst, err) := Decode rest in
        (byte_of_Z (Z.lor (Z.shiftl a 4) b) :: dst, err)
  end.

Definition DecodeString (s : string) : list byte * option error :=
  Decode (list_byte_of_string s).

End hex.

(** ** strconv *)

Module strconv.

Inductive Err : Type :=
| ErrSyntax      (* invalid syntax *)
| ErrRange.      (* value out of range *)

(** [*NumError{Func, Num, Err}]. *)
Record NumError : Type := mkNumError { Func : string; Num : string; Err_ : Err }.

Definition syntaxError (fn str : string) : NumError := mkNumError fn str ErrSyntax.
Definition rangeError (fn str : string) : NumError := mkNumError fn str ErrRange.

Definition lower (c : Z) : Z := Z.lor c 32.

(** The digit of one character, [None] where the source reports a syntax
    error for it. *)
Definition digit (c : Z) : option Z :=
  if (48 <=? c) && (c <=? 57) then Some (c - 48)
  else if (97 <=? lower c) && (lower c <=? 122) then Some (lower c - 97 + 10)
  else None.

(** The body of [for _, c := range []byte(s)], with [n] the accumulator;
    [d >= byte(base)] compares with the low eight bits of [base]. *)
Fixpoint parse_loop (base cutoff maxVal : Z) (s0 : string)
    (cs : list byte) (n : Z) : Z * option NumError :=
  match cs with
  | [] => (n, None)
  | c :: rest =>
      match digit (Z_of_byte c) with
      | None => (0, Some (syntaxError "ParseUint" s0))
      | Some d =>
          if d >=? base mod 256 then (0, Some (syntaxError "ParseUint" s0))
          else if n >=? cutoff then (maxVal, Some (rangeError "ParseUint" s0))
          else
            let n' := uint64 (n * uint64 base) in
            let n1 := uint64 (n' + d) in
            if (n1 <? n') || (n1 >? maxVal)
            then (maxVal, Some (rangeError "ParseUint" s0))
            else parse_loop base cutoff maxVal s0 rest n1
      end
  end.

(** [cutoff] is the smallest number such that [cutoff*base > maxUint64]. *)
Definition cutoff (base : Z) : Z := (2 ^ 64 - 1) / uint64 base + 1.

(** [ParseUint(s, base, bitSize)] for an explicit base in [2..36] and a
    bit size in [1..64], which is how the packer calls it (base 10, bit
    sizes 32 and 16); base 0 (prefix detection and underscores) is not
    part of this model. *)
Definition ParseUint (s : string) (base bitSize : Z) : Z * option NumError :=
  if String.eqb s "" then (0, Some (syntaxError "ParseUint" s))
  else
    let cutoff := cutoff base in
    let maxVal := uint64 (uint64 (Z.shiftl 1 bitSize) - 1) in
    parse_loop base cutoff maxVal s (list_byte_of_string s) 0.

End strconv.

(** ** unicode/utf8, as used by the conversion [[]rune(s)] *)

Module utf8.

Definition RuneError : Z := 65533.   (* U+FFFD *)

(** The table [first]: [0xF0] for ASCII, [0xF1] for an invalid leading
    byte, otherwise [accept-range index << 4 | size]. *)
Definition first (b : Z) : Z :=
  if b <? 128 then 240
  else if b <? 194 then 241
  else if b <? 224 then 2
  else if b =? 224 then 19
  else if b <? 237 then 3
  else if b =? 237 then 35
  else if b <? 240 then 3
  else if b =? 240 then 52
  else if b <? 244 then 4
  else if b =? 244 then 68
  else 241.

(** [acceptRanges[i]] as [(lo, hi)]. *)
Definition acceptRanges (i : Z) : Z * Z :=
  if i =? 1 then (160, 191)
  else if i =? 2 then (128, 159)
  else if i =? 3 then (144, 191)
  else if i =? 4 then (128, 143)
  else (128, 191).

(** [DecodeRuneInString(s)]: the rune at the head of [s] and its width. *)
Definition DecodeRuneInString (s : list byte) : Z * nat :=
  match s with
  | [] => (RuneError, O)
  | c0 :: t0 =>
      let s0 := Z_of_byte c0 in
      let x := first s0 in
      if x >=? 240 then ((if x =? 241 then RuneError else s0), 1%nat)
      else
        let sz := Z.land x 7 in
        let '(lo, hi) := acceptRanges (Z.shiftr x 4) in
        if len s <? sz then (RuneError, 1%nat)
        else
          match t0 with
          | [] => (RuneError, 1%nat)
          | c1 :: t1 =>
              let s1 := Z_of_byte c1 in
              if (s1 <? lo) || (hi <? s1) then (RuneError, 1%nat)
              else if sz <=? 2 then
                (Z.lor (Z.shiftl (Z.land s0 31) 6) (Z.land s1 63), 2%nat)
              else
                match t1 with
                | [] => (RuneError, 1%nat)
                | c2 :: t2 =>
                    let s2 := Z_of_byte c2 in
                    if (s2 <? 128) || (191 <? s2) then (RuneError, 1%nat)
                    else if sz <=? 3 then
                      (Z.lor (Z.shiftl (Z.land s0 15) 12)
                         (Z.lor (Z.shiftl (Z.land s1 63) 6) (Z.land s2 63)), 3%nat)
                    else
                      match t2 with
                      | [] => (RuneError, 1%nat)
                      | c3 :: _ =>
                          let s3 := Z_of_byte c3 in
                          if (s3 <? 128) || (191 <? s3) then (RuneError, 1%nat)
                          else
                            (Z.lor (Z.shiftl (Z.land s0 7) 18)
                               (Z.lor (Z.shiftl (Z.land s1 63) 12)
                                  (Z.lor (Z.shiftl (Z.land s2 63) 6) (Z.land s3 63))),
                             4%nat)
                      end
                end
          end
  end.

(** [for _, r := range s]: a rune is decoded at every position that is
    not inside the previous rune; [skip] counts the bytes of the current
    rune still to pass over. *)
Fixpoint range_runes (skip : nat) (s : list byte) : list Z :=
  match s with
  | [] => []
  | _ :: t =>
      match skip with
      | S k => range_runes k t
      | O =>
          let '(r, size) := DecodeRuneInString s in
          r :: range_runes (Nat.pred size) t
      end
  end.

End utf8.

(** The conversion [[]rune(str)]. *)
Definition runes_of_string (str : string) : list Z :=
  utf8.range_runes 0 (list_byte_of_string str).

(** ** unicode/utf16 *)

Module utf16.

Definition replacementChar : Z := 65533.
Definition maxRune : Z := 1114111.       (* U+10FFFF *)
Definition surr1 : Z := 55296.           (* 0xd800 *)
Definition surr2 : Z := 56320.           (* 0xdc00 *)
Definition surr3 : Z := 57344.           (* 0xe000 *)
Definition surrSelf : Z := 65536.        (* 0x10000 *)

(** [RuneLen(r)]: 1 or 2 code units, [-1] for a rune that is not a valid
    value to encode. *)
Definition RuneLen (r : Z) : Z :=
  if ((0 <=? r) && (r <? surr1)) || ((surr3 <=? r) && (r <? surrSelf)) then 1
  else if (surrSelf <=? r) && (r <=? maxRune) then 2
  else -1.

(** [EncodeRune(r)] for a rune needing a surrogate pair. *)
Definition EncodeRune (r : Z) : Z * Z :=
  let r := r - surrSelf in
  (surr1 + Z.land (Z.shiftr r 10) 1023, surr2 + Z.land r 1023).

(** [Encode(s)]: the UTF-16 code units of the runes [s]. *)
Fixpoint Encode (s : list Z) : list Z :=
  match s with
  | [] => []
  | v :: rest =>
      if RuneLen v =? 1 then uint16 v :: Encode rest
      else if RuneLen v =? 2 then
        let '(r1, r2) := EncodeRune v in
        uint16 r1 :: uint16 r2 :: Encode rest
      else uint16 replacementChar :: Encode rest
  end.

End utf16.

(** ** workflow: the data model *)

(** The dynamic values a [BOFArgument.Value] ([interface{}]) can hold.  The
    packer's type switches tell apart [int], [int16], [int32], [uint16],
    [uint32], [float64], [string] and [[]byte]; every other dynamic type
    reaches a [default] branch that only prints its name, and is [VOther]
    with that name. *)
Inductive Value : Type :=
| VNil
| VBool (b : bool)
| VInt (i : Z)
| VInt16 (i : Z)
| VInt32 (i : Z)
| VInt64 (i : Z)
| VUint16 (i : Z)
| VUint32 (i : Z)
| VFloat64 (f : spec_float)
| VString (s : string)
| VBytes (b : list byte)
| VOther (T : string).

(** The verb [%T]: the name of the dynamic type. *)
Definition typeName (v : Value) : string :=
  match v with
  | VNil => "<nil>"
  | VBool _ => "bool"
  | VInt _ => "int"
  | VInt16 _ => "int16"
  | VInt32 _ => "int32"
  | VInt64 _ => "int64"
  | VUint16 _ => "uint16"
  | VUint32 _ => "uint32"
  | VFloat64 _ => "float64"
  | VString _ => "string"
  | VBytes _ => "[]uint8"
  | VOther T => T
  end.

(** [BOFArgument]: a typed argument for BOF execution. *)
Record BOFArgument : Type := mkBOFArgument { Type_ : string; Value_ : Value }.

(** The errors of the helpers: the three ways a value can fail to meet the
    requirement of its type. *)
Inductive cause : Type :=
| InvalidType (what : string) (T : string)  (* "invalid type for <what>: %T" *)
| HexError (e : hex.error)                  (* from hex.DecodeString *)
| ParseError (e : strconv.NumError).        (* from strconv.ParseUint *)

(** The errors of [PackBOFArguments], one per [fmt.Errorf] of its body. *)
Inductive error : Type :=
| UnsupportedType (ty : string)             (* "unsupported argument type: %s" *)
| TypeMismatch (ty : string) (c : cause).   (* "failed to pack %s argument: %w" *)

(** ** Conversion of a [float64] to an unsigned integer

    The language fixes the result only when the truncated value fits the
    target type: the fraction is discarded.  Otherwise the conversion still
    succeeds with an implementation-dependent value; the model follows the
    gc compiler on amd64, which converts to a signed integer ([int64] for
    [uint32], [int32] for [uint16]; the hardware gives the minimum integer
    when the value does not fit or is not a number) and keeps the low bits. *)

Definition float64_trunc (f : spec_float) : option Z :=
  match f with
  | S754_zero _ => Some 0
  | S754_finite s m e =>
      let a := if 0 <=? e then Z.pos m * 2 ^ e else Z.pos m / 2 ^ (- e) in
      Some (if s then - a else a)
  | S754_infinity _ | S754_nan => None
  end.

Definition cvt_signed (bits : Z) (f : spec_float) : Z :=
  match float64_trunc f with
  | Some t =>
      if (- 2 ^ (bits - 1) <=? t) && (t <? 2 ^ (bits - 1)) then t
      else - 2 ^ (bits - 1)
  | None => - 2 ^ (bits - 1)
  end.

Definition uint32_of_float64 (f : spec_float) : Z := uint32 (cvt_signed 64 f).
Definition uint16_of_float64 (f : spec_float) : Z := uint16 (cvt_signed 32 f).

(** ** workflow: the packer *)

(** [packBinaryWithPrefix]: binary data with a 4-byte BE length prefix.
    Format: [length:4 BE][data...] *)
Definition packBinaryWithPrefix (value : Value) : list byte * option cause :=
  let hexString :=
    match value with
    | VString val => inl val
    | VBytes val => inl (hex.EncodeToString val)
    | _ => inr (InvalidType "binary" (typeName value))
    end in
  match hexString with
  | inr e => ([], Some e)
  | inl hexString =>
      match hex.DecodeString hexString with
      | (_, Some err) => ([], Some (HexError err))
      | (hexData, None) =>
          let buff := make 4 in
          let buff := binary.BigEndian.PutUint32 buff (uint32 (len hexData)) in
          (buff ++ hexData, None)
      end
  end.

(** [packInt]: a 32-bit integer in big-endian format, no length prefix.
    Format: [int:4 BE] *)
Definition packInt (value : Value) : list byte * option cause :=
  let i :=
    match value with
    | VInt val => inl (uint32 val)
    | VInt32 val => inl (uint32 val)
    | VUint32 val => inl val
    | VFloat64 val => inl (uint32_of_float64 val)
    | VString val =>
        match strconv.ParseUint val 10 32 with
        | (_, Some err) => inr (ParseError err)
        | (parsed, None) => inl (uint32 parsed)
        end
    | _ => inr (InvalidType "int" (typeName value))
    end in
  match i with
  | inr e => ([], Some e)
  | inl i =>
      let buff := make 4 in
      (binary.BigEndian.PutUint32 buff i, None)
  end.

(** [packShort]: a 16-bit short in big-endian format, no length prefix.
    Format: [short:2 BE] *)
Definition packShort (value : Value) : list byte * option cause :=
  let i :=
    match value with
    | VInt val => inl (uint16 val)
    | VInt16 val => inl (uint16 val)
    | VUint16 val => inl val
    | VFloat64 val => inl (uint16_of_float64 val)
    | VString val =>
        match strconv.ParseUint val 10 16 with
        | (_, Some err) => inr (ParseError err)
        | (parsed, None) => inl (uint16 parsed)
        end
    | _ => inr (InvalidType "short" (typeName value))
    end in
  match i with
  | inr e => ([], Some e)
  | inl i =>
      let buff := make 2 in
      (binary.BigEndian.PutUint16 buff i, None)
  end.

(** [packStringWithPrefix]: a narrow string with a 4-byte BE length prefix
    and a null terminator; the length includes the terminator.
    Format: [length:4 BE][char1:1][char2:1]...[null:1] *)
Definition packStringWithPrefix (value : Value) : list byte * option cause :=
  match value with
  | VString str =>
      let strData := list_byte_of_string str ++ [x00] in
      let buff := make 4 in
      let buff := binary.BigEndian.PutUint32 buff (uint32 (len strData)) in
      (buff ++ strData, None)
  | _ => ([], Some (InvalidType "string" (typeName value)))
  end.

(** [for i, utf16Char := range utf16Encoded] of [packWideStringWithPrefix]:
    each unit is written at [wstrData[i*2:]]. *)
Fixpoint write_units (units : list Z) (i : nat) (wstrData : list byte) : list byte :=
  match units with
  | [] => wstrData
  | utf16Char :: rest =>
      write_units rest (S i)
        (binary.LittleEndian.PutUint16 wstrData (i * 2) utf16Char)
  end.

(** [packWideStringWithPrefix]: a UTF-16LE string with a 4-byte BE length
    prefix and a null terminator; the length is in bytes and includes the
    2-byte terminator.
    Format: [byte_length:4 BE][utf16le_char1:2][utf16le_char2:2]...[null:2] *)
Definition packWideStringWithPrefix (value : Value) : list byte * option cause :=
  match value with
  | VString str =>
      let runes := runes_of_string str in
      let utf16Encoded := utf16.Encode runes in
      let wstrData := make ((len utf16Encoded + 1) * 2) in
      let wstrData := write_units utf16Encoded 0 wstrData in
      let wstrData :=
        binary.LittleEndian.PutUint16 wstrData (List.length utf16Encoded * 2) 0 in
      let buff := make 4 in
      let buff := binary.BigEndian.PutUint32 buff (uint32 (len wstrData)) in
      (buff ++ wstrData, None)
  | _ => ([], Some (InvalidType "wstring" (typeName value)))
  end.

(** The [switch arg.Type] of [PackBOFArguments]: the helper a tag selects,
    [None] for the [default] branch. *)
Definition packer_of (ty : string) : option (Value -> list byte * option cause) :=
  if String.eqb ty "binary" || String.eqb ty "b" then Some packBinaryWithPrefix
  else if String.eqb ty "int" || String.eqb ty "i" then Some packInt
  else if String.eqb ty "short" || String.eqb ty "s" then Some packShort
  else if String.eqb ty "string" || String.eqb ty "z" then Some packStringWithPrefix
  else if String.eqb ty "wstring" || String.eqb ty "Z" then Some packWideStringWithPrefix
  else None.

(** [for _, arg := range args] of [PackBOFArguments], with [buff] the buffer
    built so far; both error returns drop it and return a nil slice. *)
Fixpoint pack_range (args : list BOFArgument) (buff : list byte)
  : list byte * option error :=
  match args with
  | [] => (buff, None)
  | arg :: rest =>
      match packer_of (Type_ arg) with
      | None => ([], Some (UnsupportedType (Type_ arg)))
      | Some pack =>
          match pack (Value_ arg) with
          | (_, Some err) => ([], Some (TypeMismatch (Type_ arg) err))
          | (data, None) => pack_range rest (buff ++ data)
          end
      end
  end.

(** [PackBOFArguments]: packs typed arguments into the binary format for BOF
    execution, [arg1][arg2]... with a length prefix on the variable-length
    ones. *)
Definition PackBOFArguments (args : list BOFArgument) : list byte * option error :=
  if len args =? 0 then ([], None)
  else pack_range args [].

Definition arg (ty : string) (v : Value) : BOFArgument := mkBOFArgument ty v.

(** ** Vocabulary of the wire format

    What the format description says, written independently of the packer:
    the definitions below are the reading side of the format (what an
    interpreter of the buffer sees) and the plain meaning of "decimal
    string" and "hexadecimal string". *)

(** [out] is [payload] behind a 4-byte big-endian length field holding [n]. *)
Definition length_prefixed (n : Z) (payload out : list byte) : Prop :=
  exists p, List.length p = 4%nat /\ binary.BigEndian.Uint32 p = n /\ out = p ++ payload.

(** A 32-bit and a 16-bit scalar, most significant byte first. *)
Definition be32 (v : Z) : list byte :=
  [byte_of_Z (v / 2 ^ 24); byte_of_Z (v / 2 ^ 16); byte_of_Z (v / 2 ^ 8); byte_of_Z v].

Definition be16 (v : Z) : list byte := [byte_of_Z (v / 2 ^ 8); byte_of_Z v].

(** UTF-16LE: every code unit as two bytes, least significant first. *)
Definition utf16le (units : list Z) : list byte :=
  flat_map (fun u => [byte_of_Z u; byte_of_Z (u / 2 ^ 8)]) units.

(** The UTF-16 code units of a string. *)
Definition utf16_units (s : string) : list Z := utf16.Encode (runes_of_string s).

(** Decimal strings: a non-empty run of the digits 0..9, read in base ten
    with unbounded precision. *)
Definition is_decimal_digit (c : byte) : bool :=
  (48 <=? Z_of_byte c) && (Z_of_byte c <=? 57).

Fixpoint decimal_acc (cs : list byte) (acc : Z) : option Z :=
  match cs with
  | [] => Some acc
  | c :: rest =>
      if is_decimal_digit c then decimal_acc rest (10 * acc + (Z_of_byte c - 48))
      else None
  end.

Definition decimal_value (s : string) : option Z :=
  match list_byte_of_string s with
  | [] => None
  | cs => decimal_acc cs 0
  end.

(** [s] parses as an unsigned integer fitting [w] bits. *)
Definition parses_unsigned (w : Z) (s : string) : option Z :=
  match decimal_value s with
  | Some v => if v <? 2 ^ w then Some v else None
  | None => None
  end.

(** Hexadecimal strings: an even number of the digits 0..9, a..f, A..F. *)
Definition is_hex_digit (c : byte) : bool :=
  let z := Z_of_byte c in
  ((48 <=? z) && (z <=? 57)) || ((97 <=? z) && (z <=? 102)) || ((65 <=? z) && (z <=? 70)).

Definition valid_hex (s : string) : bool :=
  Nat.even (List.length (list_byte_of_string s))
  && forallb is_hex_digit (list_byte_of_string s).

(** The lower-case spelling of a hexadecimal digit. *)
Definition hex_lower (c : byte) : byte :=
  let z := Z_of_byte c in
  if (65 <=? z) && (z <=? 70) then byte_of_Z (z + 32) else c.

(** The width in bits of the two numeric types, by tag. *)
Definition numeric_width (ty : string) : option Z :=
  if String.eqb ty "int" || String.eqb ty "i" then Some 32
  else if String.eqb ty "short" || String.eqb ty "s" then Some 16
  else None.

(** A scalar of [w] bits, 32 or 16, most significant byte first. *)
Definition be (w v : Z) : list byte := if w =? 32 then be32 v else be16 v.

(** The tags of the format. *)
Definition recognized (ty : string) : bool :=
  existsb (String.eqb ty)
    ["int"; "i"; "short"; "s"; "string"; "z"; "wstring"; "Z"; "binary"; "b"].

(** The argument packs when it is alone in the list. *)
Definition packs (a : BOFArgument) : Prop := snd (PackBOFArguments [a]) = None.

(** What a binary argument carries: the bytes themselves, or the bytes whose
    hexadecimal digits, up to the case of the letters, are the string. *)
Definition binary_payload (v : Value) (data : list byte) : Prop :=
  match v with
  | VBytes b => data = b
  | VString s =>
      valid_hex s = true
      /\ hex.Encode data = map hex_lower (list_byte_of_string s)
  | _ => False
  end.

(** The two spellings of each tag. *)
Definition aliases : list (string * string) :=
  [("i", "int"); ("s", "short"); ("z", "string"); ("Z", "wstring"); ("b", "binary")].

Definition is_some {A : Type} (o : option A) : bool :=
  match o with Some _ => true | None => false end.

(** The requirement of each type on the value: a string for the two string
    types; a number of a type the helper knows, or a decimal string in
    range, for the two numeric types; raw bytes or a valid hexadecimal
    string for binary. *)
Definition coercible (ty : string) (v : Value) : bool :=
  if String.eqb ty "string" || String.eqb ty "z"
     || String.eqb ty "wstring" || String.eqb ty "Z" then
    match v with VString _ => true | _ => false end
  else if String.eqb ty "int" || String.eqb ty "i" then
    match v with
    | VInt _ | VInt32 _ | VUint32 _ | VFloat64 _ => true
    | VString s => is_some (parses_unsigned 32 s)
    | _ => false
    end
  else if String.eqb ty "short" || String.eqb ty "s" then
    match v with
    | VInt _ | VInt16 _ | VUint16 _ | VFloat64 _ => true
    | VString s => is_some (parses_unsigned 16 s)
    | _ => false
    end
  else if String.eqb ty "binary" || String.eqb ty "b" then
    match v with
    | VBytes _ => true
    | VString s => valid_hex s
    | _ => false
    end
  else false.

(** ** The reading side of a packed buffer

    How a consumer that knows the tags walks the buffer: a fixed width for
    the two numeric types, the 4-byte length and that many bytes for the
    three variable-length types. *)

Definition field_width (ty : string) (buf : list byte) : option Z :=
  match numeric_width ty with
  | Some w => Some (w / 8)
  | None =>
      if recognized ty then
        if len buf <? 4 then None
        else Some (4 + binary.BigEndian.Uint32 buf)
      else None
  end.

Definition split_field (ty : string) (buf : list byte)
  : option (list byte * list byte) :=
  match field_width ty buf with
  | Some n =>
      if n <=? len buf
      then Some (firstn (Z.to_nat n) buf, skipn (Z.to_nat n) buf)
      else None
  | None => None
  end.

Fixpoint split_fields (tys : list string) (buf : list byte)
  : option (list (list byte)) :=
  match tys with
  | [] => match buf with [] => Some [] | _ => None end
  | ty :: rest =>
      match split_field ty buf with
      | Some (field, buf') =>
          match split_fields rest buf' with
          | Some fields => Some (field :: fields)
          | None => None
          end
      | None => None
      end
  end.

(** Reading a scalar of [w] bits, 32 or 16. *)
Definition read_scalar (w : Z) (b : list byte) : Z :=
  if w =? 32 then binary.BigEndian.Uint32 b else binary.BigEndian.Uint16 b.

(** The bytes of an ASCII string with a zero byte after each. *)
Definition widen (cs : list byte) : list byte :=
  flat_map (fun c => [c; x00]) cs.

(** [l1] is [l2] with some elements left out, the order kept. *)
Inductive subseq {A : Type} : list A -> list A -> Prop :=
| subseq_nil : subseq [] []
| subseq_skip x l1 l2 : subseq l1 l2 -> subseq l1 (x :: l2)
| subseq_keep x l1 l2 : subseq l1 l2 -> subseq (x :: l1) (x :: l2).

(** ** strings and time, as used by the selector *)

Module strings.

(** [Contains(s, substr)]: [substr] occurs in [s]. *)
Fixpoint Contains (s substr : string) : bool :=
  if String.prefix substr s then true
  else
    match s with
    | EmptyString => false
    | String _ t => Contains t substr
    end.

Definition is_upper (c : ascii) : bool :=
  (65 <=? Z.of_N (N_of_ascii c)) && (Z.of_N (N_of_ascii c) <=? 90).

Definition lower_ascii (c : ascii) : ascii :=
  if is_upper c then ascii_of_N (N_of_ascii c + 32) else c.

Fixpoint map_bytes (f : ascii -> ascii) (s : string) : string :=
  match s with
  | EmptyString => EmptyString
  | String c t => String (f c) (map_bytes f t)
  end.

Fixpoint all_bytes (p : ascii -> bool) (s : string) : bool :=
  match s with
  | EmptyString => true
  | String c t => p c && all_bytes p t
  end.

Definition isASCII (s : string) : bool :=
  all_bytes (fun c => Z.of_N (N_of_ascii c) <? 128) s.

(** [ToLower(s)]: the ASCII fast path of the library; on a string with a
    byte above 127 the library maps [unicode.ToLower] over the runes, which
    is the argument [mapLower]. *)
Definition ToLower (mapLower : string -> string) (s : string) : string :=
  if isASCII s then
    if all_bytes (fun c => negb (is_upper c)) s then s
    else map_bytes lower_ascii s
  else mapLower s.

End strings.

Module time.

(** A [Duration] is an [int64] count of nanoseconds; an instant is counted
    in nanoseconds too. *)
Definition Second : Z := 1000000000.
Definition Minute : Z := 60 * Second.
Definition minDuration : Z := - 2 ^ 63.
Definition maxDuration : Z := 2 ^ 63 - 1.

(** [t.Sub(u)]: the difference, or the nearest [Duration] when it does not
    fit. *)
Definition Sub (t u : Z) : Z :=
  let d := t - u in
  if d <? minDuration then minDuration
  else if d >? maxDuration then maxDuration
  else d.

End time.

(** Signed 64-bit wrap-around. *)
Definition int64 (z : Z) : Z := (z + 2 ^ 63) mod 2 ^ 64 - 2 ^ 63.

(** ** selector *)

Module selector.

(** The fields of [csclient.BeaconDto] that the filter and the table
    read. *)
Record BeaconDto : Type := mkBeaconDto {
  BID : string;
  User : string;
  Computer : string;
  IsAdmin : bool;
  Alive : bool;
  LastCheckinTime : Z
}.

(** [BeaconFilter]: filtering criteria for beacons. *)
Record BeaconFilter : Type := mkBeaconFilter {
  fUser : string;       (* User: filter by username (partial match) *)
  fHostname : string;   (* Hostname: filter by hostname (partial match) *)
  AdminOnly : bool;
  AliveOnly : bool;
  MinutesAgo : Z        (* 0 = no filter *)
}.

(** [for _, beacon := range beacons] of [filterBeacons].  [clock k] is what
    the [k]-th call of [time.Now] returns: [time.Since] is called once for
    every beacon that reaches the time filter. *)
Fixpoint filter_range (mapLower : string -> string) (clock : nat -> Z)
    (filter : BeaconFilter) (beacons : list BeaconDto) (k : nat)
    (filtered : list BeaconDto) : list BeaconDto :=
  match beacons with
  | [] => filtered
  | beacon :: rest =>
      if negb (String.eqb (fUser filter) "")
         && negb (strings.Contains (strings.ToLower mapLower (User beacon))
                    (strings.ToLower mapLower (fUser filter)))
      then filter_range mapLower clock filter rest k filtered
      else if negb (String.eqb (fHostname filter) "")
              && negb (strings.Contains (strings.ToLower mapLower (Computer beacon))
                         (strings.ToLower mapLower (fHostname filter)))
      then filter_range mapLower clock filter rest k filtered
      else if AdminOnly filter && negb (IsAdmin beacon)
      then filter_range mapLower clock filter rest k filtered
      else if AliveOnly filter && negb (Alive beacon)
      then filter_range mapLower clock filter rest k filtered
      else if MinutesAgo filter >? 0 then
        let sinceLastCheckin := time.Sub (clock k) (LastCheckinTime beacon) in
        if sinceLastCheckin >? int64 (MinutesAgo filter * time.Minute)
        then filter_range mapLower clock filter rest (S k) filtered
        else filter_range mapLower clock filter rest (S k) (filtered ++ [beacon])
      else filter_range mapLower clock filter rest k (filtered ++ [beacon])
  end.

(** [filterBeacons]: applies the filter criteria to the beacon list; a nil
    filter is [None]. *)
Definition filterBeacons (mapLower : string -> string) (clock : nat -> Z)
    (beacons : list BeaconDto) (filter : option BeaconFilter) : list BeaconDto :=
  match filter with
  | None => beacons
  | Some filter => filter_range mapLower clock filter beacons 0 []
  end.

(** [truncate]: truncates a string to a maximum length.  [None] is the
    run-time panic of the slice expression [s[:maxLen-2]] when its bound is
    negative. *)
Definition truncate (s : string) (maxLen : Z) : option string :=
  if Z.of_nat (String.length s) <=? maxLen then Some s
  else if (0 <=? maxLen - 2) && (maxLen - 2 <=? Z.of_nat (String.length s))
  then Some (String.substring 0 (Z.to_nat (maxLen - 2)) s ++ "..")%string
  else None.

(** The first four tests of the loop, on the user, the host name, the
    admin flag and the alive flag: [true] when none of them skips the
    beacon. *)
Definition passes (mapLower : string -> string) (filter : BeaconFilter)
    (beacon : BeaconDto) : bool :=
  negb (negb (String.eqb (fUser filter) "")
        && negb (strings.Contains (strings.ToLower mapLower (User beacon))
                   (strings.ToLower mapLower (fUser filter))))
  && negb (negb (String.eqb (fHostname filter) "")
           && negb (strings.Contains (strings.ToLower mapLower (Computer beacon))
                      (strings.ToLower mapLower (fHostname filter))))
  && negb (AdminOnly filter && negb (IsAdmin beacon))
  && negb (AliveOnly filter && negb (Alive beacon)).

(** What a filter asks of a beacon, the time of the last check-in apart. *)
Definition meets (mapLower : string -> string) (filter : BeaconFilter)
    (beacon : BeaconDto) : Prop :=
  (fUser filter <> "" ->
   strings.Contains (strings.ToLower mapLower (User beacon))
     (strings.ToLower mapLower (fUser filter)) = true)
  /\ (fHostname filter <> "" ->
      strings.Contains (strings.ToLower mapLower (Computer beacon))
        (strings.ToLower mapLower (fHostname filter)) = true)
  /\ (AdminOnly filter = true -> IsAdmin beacon = true)
  /\ (AliveOnly filter = true -> Alive beacon = true).

(** How [SelectBeaconWithFilter] ends once the table is printed. *)
Inductive selection : Type :=
| Selected (bid : string)     (* return selectedBeacon.BID, nil *)
| Cancelled                   (* "selection cancelled by user" *)
| ReadFailed                  (* "failed to read input: %w" *)
| IndexPanic.                 (* index out of range in beacons[selection-1] *)

(** The prompt loop of [SelectBeaconWithFilter] over the sorted list
    [beacons].  [lines] is what [reader.ReadString] returns on standard
    input, one element per call, an error when it is exhausted; [TrimSpace]
    and [Atoi] are the functions of [strings] and [strconv], [Atoi]
    returning the number and whether it reported an error.  The count is
    the number of "Invalid selection" messages printed. *)
Fixpoint prompt_loop (TrimSpace : string -> string) (Atoi : string -> Z * bool)
    (beacons : list BeaconDto) (lines : list string) (invalid : nat)
  : selection * nat :=
  match lines with
  | [] => (ReadFailed, invalid)
  | input :: rest =>
      let input := TrimSpace input in
      if String.eqb input "q" || String.eqb input "Q" then (Cancelled, invalid)
      else
        let '(selection, err) := Atoi input in
        if err || (selection <? 1) || (selection >? len beacons)
        then prompt_loop TrimSpace Atoi beacons rest (S invalid)
        else
          match nth_error beacons (Z.to_nat (selection - 1)) with
          | Some selectedBeacon => (Selected (BID selectedBeacon), invalid)
          | None => (IndexPanic, invalid)
          end
  end.

End selector.

(** ** logger *)

Module logger.

(** [LogLevel]: the severity of a log message, an [int]. *)
Definition DEBUG : Z := 0.
Definition INFO : Z := 1.
Definition WARN : Z := 2.
Definition ERROR : Z := 3.

(** The maps [levelNames] and [levelColors]; a level that is not a key
    reads as the empty string. *)
Definition levelNames (level : Z) : string :=
  if level =? DEBUG then "DEBUG"
  else if level =? INFO then "INFO"
  else if level =? WARN then "WARN"
  else if level =? ERROR then "ERROR"
  else "".

Definition esc : string := String (ascii_of_nat 27) "".

Definition levelColors (level : Z) : string :=
  if level =? DEBUG then (esc ++ "[36m")%string
  else if level =? INFO then (esc ++ "[32m")%string
  else if level =? WARN then (esc ++ "[33m")%string
  else if level =? ERROR then (esc ++ "[31m")%string
  else "".

Definition colorReset : string := (esc ++ "[0m")%string.

(** [Logger]: [toFile] stands for the output, standard output alone or
    standard output and the log file. *)
Record Logger : Type := mkLogger {
  level : Z;
  jsonFormat : bool;
  toFile : bool;
  useColor : bool
}.

Definition parseLevel (level : string) : Z :=
  if String.eqb level "debug" then DEBUG
  else if String.eqb level "info" then INFO
  else if String.eqb level "warn" then WARN
  else if String.eqb level "error" then ERROR
  else INFO.

(** [New]: [opens] tells whether [os.OpenFile] succeeds on the file;
    [None] is the error "failed to open log file". *)
Definition New (opens : string -> bool) (level : string) (jsonFormat : bool)
    (file : string) : option Logger :=
  if negb (String.eqb file "") && negb (opens file) then None
  else
    let logLevel := parseLevel level in
    let useColor := String.eqb file "" && negb jsonFormat in
    Some (mkLogger logLevel jsonFormat (negb (String.eqb file "")) useColor).

Definition newline : string := String (ascii_of_nat 10) "".

Fixpoint ends_with_newline (s : string) : bool :=
  match s with
  | EmptyString => false
  | String c EmptyString => Ascii.eqb c (ascii_of_nat 10)
  | String _ t => ends_with_newline t
  end.

(** [log.Logger.Output] with no prefix and no flags: the text, and a
    newline when the text does not end with one. *)
Definition Output (s : string) : string :=
  if ends_with_newline s then s else (s ++ newline)%string.

(** [logText], with [timestamp] the formatted [time.Now()]. *)
Definition logText (l : Logger) (timestamp : string) (level : Z)
    (message : string) : string :=
  let levelStr := levelNames level in
  if useColor l then
    let color := levelColors level in
    Output (timestamp ++ " [" ++ color ++ levelStr ++ colorReset ++ "] " ++ message)%string
  else
    Output (timestamp ++ " [" ++ levelStr ++ "] " ++ message)%string.

(** [logJSON]: the entry is a map, which [json.Marshal] writes with its
    keys sorted; [quote] is the JSON encoding of a string. *)
Definition logJSON (quote : string -> string) (timestamp : string) (level : Z)
    (message : string) : string :=
  Output (("{" ++ quote "level" ++ ":" ++ quote (levelNames level)
           ++ "," ++ quote "message" ++ ":" ++ quote message
           ++ "," ++ quote "timestamp" ++ ":" ++ quote timestamp ++ "}")
          ++ newline)%string.

(** [log]: the lines written to the output, none when the level is below
    the level of the logger; [message] is the formatted message, the two
    timestamps are the clock in the two layouts. *)
Definition log (quote : string -> string) (l : Logger)
    (timestampText timestampJSON : string) (level : Z) (message : string)
  : list string :=
  if level <? logger.level l then []
  else if jsonFormat l then [logJSON quote timestampJSON level message]
  else [logText l timestampText level message].

(** The byte [c] occurs in [s]. *)
Fixpoint has_byte (c : ascii) (s : string) : bool :=
  match s with
  | EmptyString => false
  | String c' t => Ascii.eqb c c' || has_byte c t
  end.

End logger.

(** * Properties *)

(** ** Bytes and stores *)

Lemma Z_of_byte_range (b : byte) : 0 <= Z_of_byte b < 256.
Proof.
  unfold Z_of_byte. pose proof (Byte.to_N_bounded b) as H.
  lia.
Qed.

Lemma Z_of_byte_of_Z (z : Z) : Z_of_byte (byte_of_Z z) = z mod 256.
Proof.
  unfold byte_of_Z, Z_of_byte.
  assert (Hr : 0 <= z mod 256 < 256) by (apply Z.mod_pos_bound; lia).
  destruct (Byte.of_N (Z.to_N (z mod 256))) as [b|] eqn:E.
  - apply Byte.to_of_N in E. rewrite E. lia.
  - apply Byte.of_N_None_iff in E. lia.
Qed.

Lemma byte_of_Z_of_byte (b : byte) : byte_of_Z (Z_of_byte b) = b.
Proof.
  unfold byte_of_Z, Z_of_byte.
  pose proof (Z_of_byte_range b) as Hr. unfold Z_of_byte in Hr.
  rewrite Z.mod_small by lia. rewrite N2Z.id, Byte.of_to_N. reflexivity.
Qed.

Lemma byte_of_Z_mod (z : Z) : byte_of_Z (z mod 256) = byte_of_Z z.
Proof. unfold byte_of_Z. rewrite Z.mod_mod by lia. reflexivity. Qed.

Lemma len_app {A} (l1 l2 : list A) : len (l1 ++ l2) = len l1 + len l2.
Proof. unfold len. rewrite length_app. lia. Qed.

Lemma len_nonneg {A} (l : list A) : 0 <= len l.
Proof. unfold len. lia. Qed.

Lemma store_length b i x : List.length (store b i x) = List.length b.
Proof.
  revert i; induction b as [|h t IH]; intros [|j]; simpl; auto.
Qed.

(** A store at the position just after a prefix replaces the next byte. *)
Lemma store_app_here pre y rest x :
  store (pre ++ y :: rest) (List.length pre) x = pre ++ x :: rest.
Proof. induction pre as [|h t IH]; simpl; [reflexivity | now rewrite IH]. Qed.

Lemma PutUint32_make (v : Z) :
  binary.BigEndian.PutUint32 (make 4) v = be32 v.
Proof.
  unfold binary.BigEndian.PutUint32, make, be32. simpl.
  rewrite !Z.shiftr_div_pow2 by lia. reflexivity.
Qed.

Lemma PutUint16_make (v : Z) :
  binary.BigEndian.PutUint16 (make 2) v = be16 v.
Proof.
  unfold binary.BigEndian.PutUint16, make, be16. simpl.
  rewrite !Z.shiftr_div_pow2 by lia. reflexivity.
Qed.

(** ** Reading back the scalar fields *)

Lemma testbit_byte (z n : Z) :
  0 <= n -> Z.testbit (Z_of_byte (byte_of_Z z)) n = (n <? 8) && Z.testbit z n.
Proof.
  intros Hn. rewrite Z_of_byte_of_Z. change 256 with (2 ^ 8).
  now rewrite Z.testbit_mod_pow2 by lia.
Qed.

Lemma Uint32_be32 (v : Z) : binary.BigEndian.Uint32 (be32 v) = uint32 v.
Proof.
  unfold binary.BigEndian.Uint32, be32, uint32.
  apply Z.bits_inj'; intros n Hn.
  rewrite !Z.lor_spec, !Z.shiftl_spec by lia.
  rewrite Z.testbit_mod_pow2 by lia.
  rewrite testbit_byte by lia.
  destruct (Z.ltb_spec n 8) as [H8|H8].
  - rewrite !(Z.testbit_neg_r _ (n - _)) by lia.
    destruct (Z.ltb_spec n 32); [|lia]. simpl. now rewrite !orb_false_r.
  - destruct (Z.ltb_spec n 16) as [H16|H16].
    + rewrite !(Z.testbit_neg_r _ (n - 16)), !(Z.testbit_neg_r _ (n - 24)) by lia.
      rewrite testbit_byte, Z.div_pow2_bits by lia.
      replace (n - 8 + 8) with n by lia.
      destruct (Z.ltb_spec (n - 8) 8); [|lia].
      destruct (Z.ltb_spec n 32); [|lia]. simpl. now rewrite !orb_false_r.
    + destruct (Z.ltb_spec n 24) as [H24|H24].
      * rewrite !(Z.testbit_neg_r _ (n - 24)) by lia.
        rewrite !testbit_byte, !Z.div_pow2_bits by lia.
        replace (n - 16 + 16) with n by lia.
        destruct (Z.ltb_spec (n - 8) 8); [lia|].
        destruct (Z.ltb_spec (n - 16) 8); [|lia].
        destruct (Z.ltb_spec n 32); [|lia]. simpl. now rewrite !orb_false_r.
      * rewrite !testbit_byte, !Z.div_pow2_bits by lia.
        replace (n - 24 + 24) with n by lia.
        destruct (Z.ltb_spec (n - 8) 8); [lia|].
        destruct (Z.ltb_spec (n - 16) 8); [lia|].
        destruct (Z.ltb_spec (n - 24) 8); destruct (Z.ltb_spec n 32);
          simpl; try reflexivity; lia.
Qed.

Lemma Uint16_be16 (v : Z) : binary.BigEndian.Uint16 (be16 v) = uint16 v.
Proof.
  unfold binary.BigEndian.Uint16, be16, uint16.
  apply Z.bits_inj'; intros n Hn.
  rewrite !Z.lor_spec, !Z.shiftl_spec by lia.
  rewrite Z.testbit_mod_pow2 by lia.
  rewrite testbit_byte by lia.
  destruct (Z.ltb_spec n 8) as [H8|H8].
  - rewrite !(Z.testbit_neg_r _ (n - _)) by lia.
    destruct (Z.ltb_spec n 16); [|lia]. simpl. now rewrite !orb_false_r.
  - rewrite !testbit_byte, !Z.div_pow2_bits by lia.
    replace (n - 8 + 8) with n by lia.
    destruct (Z.ltb_spec (n - 8) 8); destruct (Z.ltb_spec n 16);
      simpl; try reflexivity; lia.
Qed.

Lemma uint32_small (v : Z) : 0 <= v < 2 ^ 32 -> uint32 v = v.
Proof. intros H. unfold uint32. now apply Z.mod_small. Qed.

Lemma uint16_small (v : Z) : 0 <= v < 2 ^ 16 -> uint16 v = v.
Proof. intros H. unfold uint16. now apply Z.mod_small. Qed.

Lemma be32_length (v : Z) : List.length (be32 v) = 4%nat.
Proof. reflexivity. Qed.

(** A buffer that starts with [be32 n] is length-prefixed with [n] when [n]
    fits the field. *)
Lemma length_prefixed_be32 (n : Z) (payload : list byte) :
  0 <= n < 2 ^ 32 -> length_prefixed n payload (be32 n ++ payload).
Proof.
  intros Hn. exists (be32 n). repeat split.
  rewrite Uint32_be32. now apply uint32_small.
Qed.

Lemma byte_of_Z_congr (a b : Z) : a mod 256 = b mod 256 -> byte_of_Z a = byte_of_Z b.
Proof. unfold byte_of_Z. now intros ->. Qed.

Lemma low_bytes_of_uint32 (x k : Z) :
  0 <= k <= 24 -> (uint32 x / 2 ^ k) mod 256 = (x / 2 ^ k) mod 256.
Proof.
  intros Hk. unfold uint32. change 256 with (2 ^ 8).
  apply Z.bits_inj'; intros n Hn.
  rewrite !Z.testbit_mod_pow2, !Z.div_pow2_bits, Z.testbit_mod_pow2 by lia.
  destruct (Z.ltb_spec n 8); [|reflexivity].
  destruct (Z.ltb_spec (n + k) 32); [reflexivity | lia].
Qed.

(** The four bytes written for a length only depend on its low 32 bits. *)
Lemma be32_uint32 (x : Z) : be32 (uint32 x) = be32 x.
Proof.
  unfold be32.
  rewrite (byte_of_Z_congr (uint32 x / 2 ^ 24) (x / 2 ^ 24))
    by (apply low_bytes_of_uint32; lia).
  rewrite (byte_of_Z_congr (uint32 x / 2 ^ 16) (x / 2 ^ 16))
    by (apply low_bytes_of_uint32; lia).
  rewrite (byte_of_Z_congr (uint32 x / 2 ^ 8) (x / 2 ^ 8))
    by (apply low_bytes_of_uint32; lia).
  rewrite (byte_of_Z_congr (uint32 x) x)
    by (pose proof (low_bytes_of_uint32 x 0) as H; rewrite !Z.div_1_r in H;
        apply H; lia).
  reflexivity.
Qed.

(** ** The loop of [PackBOFArguments] *)

(** What the loop does with one argument, read off a one-element list. *)
Lemma PackBOFArguments_single (a : BOFArgument) :
  PackBOFArguments [a] =
  match packer_of (Type_ a) with
  | None => ([], Some (UnsupportedType (Type_ a)))
  | Some pack =>
      match pack (Value_ a) with
      | (_, Some c) => ([], Some (TypeMismatch (Type_ a) c))
      | (data, None) => (data, None)
      end
  end.
Proof.
  unfold PackBOFArguments. simpl.
  destruct (packer_of (Type_ a)) as [pack|]; [|reflexivity].
  destruct (pack (Value_ a)) as [data [c|]]; reflexivity.
Qed.

Lemma PackBOFArguments_nonempty a rest :
  PackBOFArguments (a :: rest) = pack_range (a :: rest) [].
Proof.
  unfold PackBOFArguments, len. simpl List.length.
  destruct (Z.eqb_spec (Z.of_nat (S (List.length rest))) 0); [lia | reflexivity].
Qed.

Lemma PackBOFArguments_pack_range args :
  PackBOFArguments args = pack_range args [].
Proof. destruct args; [reflexivity | apply PackBOFArguments_nonempty]. Qed.

(** One step of the loop on an argument that packs. *)
Lemma pack_range_cons_ok a rest buff :
  packs a ->
  pack_range (a :: rest) buff = pack_range rest (buff ++ fst (PackBOFArguments [a])).
Proof.
  unfold packs. rewrite PackBOFArguments_single. simpl.
  destruct (packer_of (Type_ a)) as [pack|]; [|discriminate].
  destruct (pack (Value_ a)) as [data [c|]]; [discriminate|reflexivity].
Qed.

(** One step of the loop on an argument that does not pack: the error of
    that argument, and the buffer is dropped. *)
Lemma pack_range_cons_fail a rest buff e :
  snd (PackBOFArguments [a]) = Some e ->
  pack_range (a :: rest) buff = ([], Some e).
Proof.
  rewrite PackBOFArguments_single. simpl.
  destruct (packer_of (Type_ a)) as [pack|]; simpl.
  - destruct (pack (Value_ a)) as [data [c|]]; simpl; congruence.
  - congruence.
Qed.

Lemma pack_range_all_ok args : forall buff,
  Forall packs args ->
  pack_range args buff
  = (buff ++ List.concat (map (fun a => fst (PackBOFArguments [a])) args), None).
Proof.
  induction args as [|a rest IH]; intros buff Hall.
  - simpl. now rewrite app_nil_r.
  - inversion Hall as [|? ? Ha Hrest]; subst.
    rewrite pack_range_cons_ok by assumption.
    rewrite IH by assumption. simpl. now rewrite app_assoc.
Qed.

Lemma pack_range_success_inv args : forall buff,
  snd (pack_range args buff) = None -> Forall packs args.
Proof.
  induction args as [|a rest IH]; intros buff H; [constructor|].
  destruct (snd (PackBOFArguments [a])) as [e|] eqn:E.
  - rewrite (pack_range_cons_fail a rest buff e E) in H. discriminate.
  - rewrite pack_range_cons_ok in H by exact E.
    constructor; [exact E | eapply IH; exact H].
Qed.

(** The first argument that does not pack decides the result. *)
Lemma pack_range_first_failure pre a post e : forall buff,
  Forall packs pre ->
  snd (PackBOFArguments [a]) = Some e ->
  pack_range (pre ++ a :: post) buff = ([], Some e).
Proof.
  induction pre as [|x pre IH]; intros buff Hpre Ha; simpl app.
  - now apply pack_range_cons_fail.
  - inversion Hpre; subst. rewrite pack_range_cons_ok by assumption. now apply IH.
Qed.

(** A list with an argument that does not pack is rejected, with no bytes. *)
Lemma pack_range_some_failure args a : forall buff,
  In a args -> ~ packs a ->
  exists e, pack_range args buff = ([], Some e).
Proof.
  induction args as [|x rest IH]; intros buff Hin Hnp; [contradiction|].
  destruct (snd (PackBOFArguments [x])) as [e|] eqn:E.
  - exists e. now apply pack_range_cons_fail.
  - rewrite pack_range_cons_ok by exact E.
    destruct Hin as [->|Hin]; [contradiction | now apply IH].
Qed.

(** C8. [PackBOFArguments] applied to the empty argument list returns an
    empty byte buffer and no error. *)
Theorem PackBOFArguments_empty : PackBOFArguments [] = ([], None).
Proof. reflexivity. Qed.

(** C1. Packing [{string "C:\Windows"}, {short 0}] gives the length 11 on
    four bytes, big-endian, the ASCII bytes of the string, one zero byte,
    then the two bytes of the short; packing
    [{wstring "C:\Windows"}, {int 12112}] gives the length 22 on four
    bytes, the UTF-16LE bytes of the string, two zero bytes, then
    00 00 2F 50.  These are the first and third rows of
    [TestPackBOFArguments]. *)
Theorem PackBOFArguments_test_vectors :
  PackBOFArguments [arg "string" (VString "C:\Windows"); arg "short" (VInt 0)]
  = ([x00; x00; x00; x0b;
      x43; x3a; x5c; x57; x69; x6e; x64; x6f; x77; x73;
      x00;
      x00; x00], None)
  /\
  PackBOFArguments [arg "wstring" (VString "C:\Windows"); arg "int" (VInt 12112)]
  = ([x00; x00; x00; x16;
      x43; x00; x3a; x00; x5c; x00; x57; x00; x69; x00;
      x6e; x00; x64; x00; x6f; x00; x77; x00; x73; x00;
      x00; x00;
      x00; x00; x2f; x50], None).
Proof. split; vm_compute; reflexivity. Qed.

(** C2. When packing succeeds, the buffer is the concatenation of the
    encodings of the arguments, in order: for two arguments that pack,
    [pack [a; b] = pack [a] ++ pack [b]], and for any list that packs, the
    buffer is the concatenation of what each argument packs to alone (and
    each of them packs alone). *)
Theorem PackBOFArguments_concat :
  (forall a b,
      snd (PackBOFArguments [a]) = None ->
      snd (PackBOFArguments [b]) = None ->
      PackBOFArguments [a; b]
      = (fst (PackBOFArguments [a]) ++ fst (PackBOFArguments [b]), None))
  /\
  (forall args,
      snd (PackBOFArguments args) = None ->
      fst (PackBOFArguments args)
      = List.concat (map (fun a => fst (PackBOFArguments [a])) args)
      /\ Forall (fun a => snd (PackBOFArguments [a]) = None) args).
Proof.
  split.
  - intros a b Ha Hb.
    rewrite PackBOFArguments_nonempty, pack_range_all_ok
      by (repeat constructor; assumption).
    simpl. now rewrite app_nil_r.
  - intros args H. rewrite PackBOFArguments_pack_range in H.
    apply pack_range_success_inv in H.
    split; [|exact H].
    rewrite PackBOFArguments_pack_range, pack_range_all_ok by exact H.
    reflexivity.
Qed.

Lemma PackBOFArguments_concat_witness :
  PackBOFArguments [arg "z" (VString "ab"); arg "i" (VInt 258)]
  = (fst (PackBOFArguments [arg "z" (VString "ab")])
       ++ fst (PackBOFArguments [arg "i" (VInt 258)]), None)
  /\ fst (PackBOFArguments [arg "s" (VInt 7); arg "b" (VString "0aFf"); arg "Z" (VString "hi")])
     = List.concat (map (fun a => fst (PackBOFArguments [a]))
                 [arg "s" (VInt 7); arg "b" (VString "0aFf"); arg "Z" (VString "hi")]).
Proof.
  split.
  - apply (proj1 PackBOFArguments_concat); reflexivity.
  - apply (proj2 PackBOFArguments_concat); reflexivity.
Defined.

(** ** [strconv.ParseUint] in base ten against the plain reading of a
    decimal string *)

Lemma digit_of_decimal (c : byte) :
  is_decimal_digit c = true ->
  strconv.digit (Z_of_byte c) = Some (Z_of_byte c - 48)
  /\ 0 <= Z_of_byte c - 48 <= 9.
Proof.
  unfold is_decimal_digit, strconv.digit. intros H. rewrite H.
  apply andb_prop in H. destruct H as [H1 H2].
  apply Z.leb_le in H1, H2. split; [reflexivity | lia].
Qed.

Lemma digit_of_other (c : byte) :
  is_decimal_digit c = false ->
  strconv.digit (Z_of_byte c) = None
  \/ exists d, strconv.digit (Z_of_byte c) = Some d /\ 10 <= d.
Proof.
  unfold is_decimal_digit, strconv.digit. intros H. rewrite H.
  destruct ((97 <=? strconv.lower (Z_of_byte c))
            && (strconv.lower (Z_of_byte c) <=? 122)) eqn:E.
  - right. eexists; split; [reflexivity|].
    apply andb_prop in E. destruct E as [E1 _]. apply Z.leb_le in E1. lia.
  - now left.
Qed.

Lemma decimal_acc_ge cs : forall acc v,
  0 <= acc -> decimal_acc cs acc = Some v -> acc <= v.
Proof.
  induction cs as [|c rest IH]; cbn [decimal_acc]; intros acc v Hacc H.
  - injection H as <-. lia.
  - destruct (is_decimal_digit c) eqn:E; [|discriminate].
    destruct (digit_of_decimal c E) as [_ Hd].
    apply IH in H; lia.
Qed.

Section ParseLoop.

Variables (maxVal : Z) (s0 : string).
Hypothesis maxVal_range : 0 <= maxVal < 2 ^ 64.

(** The loop returns the value of the digits when it is at most [maxVal]
    and an error in every other case; the 64-bit accumulator never wraps
    unnoticed. *)
Lemma parse_loop_decimal cs : forall n,
  0 <= n <= maxVal ->
  match decimal_acc cs n with
  | Some v =>
      if v <=? maxVal
      then strconv.parse_loop 10 (strconv.cutoff 10) maxVal s0 cs n = (v, None)
      else exists r e, strconv.parse_loop 10 (strconv.cutoff 10) maxVal s0 cs n = (r, Some e)
  | None => exists r e, strconv.parse_loop 10 (strconv.cutoff 10) maxVal s0 cs n = (r, Some e)
  end.
Proof.
  assert (Hcut : strconv.cutoff 10 = 1844674407370955162) by reflexivity.
  assert (H64 : 2 ^ 64 = 18446744073709551616) by reflexivity.
  induction cs as [|c rest IH]; intros n Hn;
    cbn [decimal_acc strconv.parse_loop].
  - destruct (Z.leb_spec n maxVal); [reflexivity | lia].
  - destruct (is_decimal_digit c) eqn:E.
    + destruct (digit_of_decimal c E) as [-> Hd].
      set (d := Z_of_byte c - 48) in *.
      change (10 mod 256) with 10.
      destruct (Z.geb_spec d 10) as [|_]; [lia|].
      assert (Hbig : maxVal < 10 * n + d ->
              match decimal_acc rest (10 * n + d) with
              | Some v => (v <=? maxVal) = false
              | None => True
              end).
      { intros Hlt. destruct (decimal_acc rest (10 * n + d)) as [v|] eqn:Ev; [|exact I].
        apply decimal_acc_ge in Ev; [|lia]. apply Z.leb_gt. lia. }
      destruct (Z.geb_spec n (strconv.cutoff 10)) as [Hc|Hc].
      * assert (Hover : maxVal < 10 * n + d) by lia.
specialize (Hbig Hover).
        destruct (decimal_acc rest (10 * n + d)) as [v|];
          [rewrite Hbig|]; eauto.
      * assert (Hn' : uint64 (n * uint64 10) = n * 10).
        { unfold uint64. change (10 mod 2 ^ 64) with 10.
          apply Z.mod_small. lia. }
        rewrite Hn'.
        destruct (Z_lt_ge_dec (n * 10 + d) (2 ^ 64)) as [Hs|Hs].
        -- assert (Hn1 : uint64 (n * 10 + d) = 10 * n + d).
           { unfold uint64. rewrite Z.mod_small by lia. lia. }
           rewrite Hn1.
           destruct (Z.ltb_spec (10 * n + d) (n * 10)) as [|_]; [lia|].
           cbn [orb].
           destruct (Z.gtb_spec (10 * n + d) maxVal) as [Hgt|Hle].
           ++ assert (Hover : maxVal < 10 * n + d) by lia.
specialize (Hbig Hover).
              destruct (decimal_acc rest (10 * n + d)) as [v|];
                [rewrite Hbig|]; eauto.
           ++ apply IH. lia.
        -- assert (Hn1 : uint64 (n * 10 + d) = n * 10 + d - 2 ^ 64).
           { unfold uint64. symmetry. apply Z.mod_unique with (q := 1); lia. }
           rewrite Hn1.
           destruct (Z.ltb_spec (n * 10 + d - 2 ^ 64) (n * 10)) as [_|]; [|lia].
           cbn [orb].
           assert (Hover : maxVal < 10 * n + d) by lia.
specialize (Hbig Hover).
           destruct (decimal_acc rest (10 * n + d)) as [v|];
             [rewrite Hbig|]; eauto.
    + destruct (digit_of_other c E) as [->|[d [-> Hd]]]; [eauto|].
      change (10 mod 256) with 10.
      destruct (Z.geb_spec d 10) as [_|]; [eauto | lia].
Qed.

End ParseLoop.

Lemma list_byte_of_string_nil (s : string) :
  list_byte_of_string s = [] -> s = "".
Proof.
  intros H. rewrite <- (string_of_list_byte_of_string s), H. reflexivity.
Qed.

(** [ParseUint(s, 10, w)] for the two widths of the packer: the value of a
    decimal string that fits [w] bits, an error for any other string. *)
Lemma ParseUint_decimal (s : string) (w : Z) :
  w = 16 \/ w = 32 ->
  match parses_unsigned w s with
  | Some v => strconv.ParseUint s 10 w = (v, None)
  | None => exists r e, strconv.ParseUint s 10 w = (r, Some e)
  end.
Proof.
  intros Hw. unfold parses_unsigned, decimal_value, strconv.ParseUint.
  destruct (String.eqb_spec s "") as [->|Hne]; [simpl; eauto|].
  destruct (list_byte_of_string s) as [|c cs] eqn:Es.
  { apply list_byte_of_string_nil in Es. contradiction. }
  set (maxVal := uint64 (uint64 (Z.shiftl 1 w) - 1)).
  assert (HmaxVal : maxVal = 2 ^ w - 1) by (destruct Hw; subst; reflexivity).
  assert (Hrange : 0 <= maxVal < 2 ^ 64) by (destruct Hw; subst; vm_compute; split; congruence).
  pose proof (parse_loop_decimal maxVal s Hrange (c :: cs) 0 ltac:(lia)) as H.
  cbv zeta in H.
  destruct (decimal_acc (c :: cs) 0) as [v|]; [|exact H].
  destruct (Z.leb_spec v maxVal); destruct (Z.ltb_spec v (2 ^ w)); try lia; exact H.
Qed.

(** ** The numeric helpers *)

Lemma parses_unsigned_range w s v :
  parses_unsigned w s = Some v -> 0 <= v < 2 ^ w.
Proof.
  unfold parses_unsigned, decimal_value.
  destruct (list_byte_of_string s) as [|c cs]; [discriminate|].
  destruct (decimal_acc (c :: cs) 0) as [u|] eqn:E; [|discriminate].
  apply decimal_acc_ge in E; [|lia].
  destruct (Z.ltb_spec u (2 ^ w)); [|discriminate].
  intros [= <-]. lia.
Qed.

(** The switch on the tag sends the numeric tags to the numeric helpers. *)
Lemma numeric_width_packer ty w :
  numeric_width ty = Some w ->
  (w = 32 /\ packer_of ty = Some packInt) \/ (w = 16 /\ packer_of ty = Some packShort).
Proof.
  unfold numeric_width, packer_of.
  destruct (String.eqb_spec ty "int") as [->|]; [intros [= <-]; now left|].
  destruct (String.eqb_spec ty "i") as [->|]; [intros [= <-]; now left|].
  destruct (String.eqb_spec ty "short") as [->|]; [intros [= <-]; now right|].
  destruct (String.eqb_spec ty "s") as [->|]; [intros [= <-]; now right|].
  discriminate.
Qed.

Lemma packInt_string (s : string) :
  match parses_unsigned 32 s with
  | Some v => packInt (VString s) = (be32 v, None)
  | None => exists e, packInt (VString s) = ([], Some (ParseError e))
  end.
Proof.
  pose proof (ParseUint_decimal s 32 (or_intror eq_refl)) as H.
  pose proof (parses_unsigned_range 32 s) as Hr.
  unfold packInt.
  destruct (parses_unsigned 32 s) as [v|].
  - rewrite H, PutUint32_make, uint32_small by (now apply Hr). reflexivity.
  - destruct H as (r & e & ->). now exists e.
Qed.

Lemma packShort_string (s : string) :
  match parses_unsigned 16 s with
  | Some v => packShort (VString s) = (be16 v, None)
  | None => exists e, packShort (VString s) = ([], Some (ParseError e))
  end.
Proof.
  pose proof (ParseUint_decimal s 16 (or_introl eq_refl)) as H.
  pose proof (parses_unsigned_range 16 s) as Hr.
  unfold packShort.
  destruct (parses_unsigned 16 s) as [v|].
  - rewrite H, PutUint16_make, uint16_small by (now apply Hr). reflexivity.
  - destruct H as (r & e & ->). now exists e.
Qed.

(** A numeric argument given as a string, at the level of
    [PackBOFArguments]. *)
Lemma pack_numeric_string ty w s :
  numeric_width ty = Some w ->
  match parses_unsigned w s with
  | Some v => PackBOFArguments [arg ty (VString s)] = (be w v, None)
  | None =>
      exists e,
        PackBOFArguments [arg ty (VString s)] = ([], Some (TypeMismatch ty (ParseError e)))
  end.
Proof.
  intros Hw. rewrite PackBOFArguments_single. simpl Type_. simpl Value_.
  destruct (numeric_width_packer ty w Hw) as [[-> ->]|[-> ->]].
  - pose proof (packInt_string s) as H.
    destruct (parses_unsigned 32 s) as [v|].
    + now rewrite H.
    + destruct H as [e ->]. now exists e.
  - pose proof (packShort_string s) as H.
    destruct (parses_unsigned 16 s) as [v|].
    + now rewrite H.
    + destruct H as [e ->]. now exists e.
Qed.

Lemma parses_unsigned_minus w t : parses_unsigned w (String "-" t) = None.
Proof. reflexivity. Qed.

(** C10. For the int and short types (either spelling of the tag) and a
    string value: a string that does not parse as an unsigned decimal
    integer fitting the width makes [PackBOFArguments] return an error
    for the argument; so does, in particular, every string that starts with
    a minus sign and every decimal string whose value is at least 2^32
    (int) or 2^16 (short); and a string that is accepted is packed as
    exactly its value, never wrapped.  Values of type [int], on the other
    hand, are reduced modulo 2^32 or 2^16. *)
Theorem decimal_string_never_wraps (ty : string) (w : Z) (s : string) :
  numeric_width ty = Some w ->
  (parses_unsigned w s = None ->
   exists e,
     PackBOFArguments [arg ty (VString s)] = ([], Some (TypeMismatch ty (ParseError e))))
  /\ (forall t, s = String "-" t ->
      exists e,
        PackBOFArguments [arg ty (VString s)] = ([], Some (TypeMismatch ty (ParseError e))))
  /\ (forall v, decimal_value s = Some v -> 2 ^ w <= v ->
      exists e,
        PackBOFArguments [arg ty (VString s)] = ([], Some (TypeMismatch ty (ParseError e))))
  /\ (forall v, parses_unsigned w s = Some v ->
      0 <= v < 2 ^ w
      /\ decimal_value s = Some v
      /\ PackBOFArguments [arg ty (VString s)] = (be w v, None))
  /\ (forall z, PackBOFArguments [arg ty (VInt z)] = (be w (z mod 2 ^ w), None)).
Proof.
  intros Hw. pose proof (pack_numeric_string ty w s Hw) as H.
  assert (Hnone : parses_unsigned w s = None ->
    exists e,
      PackBOFArguments [arg ty (VString s)] = ([], Some (TypeMismatch ty (ParseError e)))).
  { intros E. now rewrite E in H. }
  split; [exact Hnone|]. split; [|split; [|split]].
  - intros t ->. apply Hnone, parses_unsigned_minus.
  - intros v Hv Hge. apply Hnone. unfold parses_unsigned. rewrite Hv.
    destruct (Z.ltb_spec v (2 ^ w)); [lia | reflexivity].
  - intros v Hv. rewrite Hv in H. split; [now apply (parses_unsigned_range w s)|].
    split; [|exact H].
    unfold parses_unsigned in Hv. destruct (decimal_value s) as [u|]; [|discriminate].
    destruct (u <? 2 ^ w); congruence.
  - intros z. rewrite PackBOFArguments_single. simpl Type_. simpl Value_.
    destruct (numeric_width_packer ty w Hw) as [[-> ->]|[-> ->]].
    + unfold packInt. now rewrite PutUint32_make.
    + unfold packShort. now rewrite PutUint16_make.
Qed.

Lemma decimal_string_never_wraps_witness :
  numeric_width "int" = Some 32
  /\ (exists e,
        PackBOFArguments [arg "int" (VString "4294967296")]
        = ([], Some (TypeMismatch "int" (ParseError e))))
  /\ PackBOFArguments [arg "int" (VString "4294967295")] = (be 32 4294967295, None).
Proof.
  split; [reflexivity|]. split.
  - destruct (decimal_string_never_wraps "int" 32 "4294967296" eq_refl) as (H & _).
    apply H. reflexivity.
  - destruct (decimal_string_never_wraps "int" 32 "4294967295" eq_refl) as (_ & _ & _ & H & _).
    apply (H 4294967295). reflexivity.
Defined.

(** ** [encoding/hex]: decoding what was encoded, and valid strings *)

Lemma list_pair_ind {A : Type} (P : list A -> Prop) :
  P [] -> (forall x, P [x]) -> (forall x y l, P l -> P (x :: y :: l)) ->
  forall l, P l.
Proof.
  intros H0 H1 H2 l.
  assert (H : P l /\ forall x, P (x :: l)); [|exact (proj1 H)].
  induction l as [|a l [IH1 IH2]]; split; auto.
Qed.

(** The two digits written for a byte decode to that byte. *)
Lemma hex_byte_roundtrip (v : byte) :
  hex.Decode [hex.hextable (Z.shiftr (Z_of_byte v) 4); hex.hextable (Z.land (Z_of_byte v) 15)]
  = ([v], None).
Proof. destruct v; vm_compute; reflexivity. Qed.

Lemma Decode_cons2 p q rest :
  hex.Decode (p :: q :: rest) =
  match hex.Decode [p; q] with
  | ([d], None) => let '(dst, err) := hex.Decode rest in (d :: dst, err)
  | r => r
  end.
Proof.
  cbn [hex.Decode].
  destruct (hex.reverseHexTable p >? 15); [reflexivity|].
  destruct (hex.reverseHexTable q >? 15); reflexivity.
Qed.

Lemma Decode_Encode (b : list byte) : hex.Decode (hex.Encode b) = (b, None).
Proof.
  induction b as [|v rest IH]; [reflexivity|].
  cbn [hex.Encode]. rewrite Decode_cons2, hex_byte_roundtrip, IH. reflexivity.
Qed.

Lemma DecodeString_EncodeToString (b : list byte) :
  hex.DecodeString (hex.EncodeToString b) = (b, None).
Proof.
  unfold hex.DecodeString, hex.EncodeToString.
  rewrite list_byte_of_string_of_list_byte. apply Decode_Encode.
Qed.

Lemma Encode_injective (d1 d2 : list byte) :
  hex.Encode d1 = hex.Encode d2 -> d1 = d2.
Proof.
  intros H. apply (f_equal hex.Decode) in H.
  rewrite !Decode_Encode in H. congruence.
Qed.

Lemma reverseHexTable_digit (c : byte) :
  is_hex_digit c = true ->
  0 <= hex.reverseHexTable c <= 15
  /\ hex.hextable (hex.reverseHexTable c) = hex_lower c.
Proof.
  intros H. destruct c; try discriminate H; split; try reflexivity;
    vm_compute; split; discriminate.
Qed.

Lemma reverseHexTable_other (c : byte) :
  is_hex_digit c = false -> hex.reverseHexTable c = 255.
Proof.
  unfold is_hex_digit, hex.reverseHexTable. cbv zeta.
  destruct ((48 <=? Z_of_byte c) && (Z_of_byte c <=? 57)); [discriminate|].
  destruct ((97 <=? Z_of_byte c) && (Z_of_byte c <=? 102)); [discriminate|].
  destruct ((65 <=? Z_of_byte c) && (Z_of_byte c <=? 70)); [discriminate|].
  reflexivity.
Qed.

(** The byte made of two nibbles is written back as those nibbles. *)
Lemma Encode_nibbles (a b : Z) :
  0 <= a <= 15 -> 0 <= b <= 15 ->
  hex.Encode [byte_of_Z (Z.lor (Z.shiftl a 4) b)] = [hex.hextable a; hex.hextable b].
Proof.
  intros Ha Hb.
  assert (Ea : a = 0 \/ a = 1 \/ a = 2 \/ a = 3 \/ a = 4 \/ a = 5 \/ a = 6 \/ a = 7 \/
               a = 8 \/ a = 9 \/ a = 10 \/ a = 11 \/ a = 12 \/ a = 13 \/ a = 14 \/ a = 15)
    by lia.
  assert (Eb : b = 0 \/ b = 1 \/ b = 2 \/ b = 3 \/ b = 4 \/ b = 5 \/ b = 6 \/ b = 7 \/
               b = 8 \/ b = 9 \/ b = 10 \/ b = 11 \/ b = 12 \/ b = 13 \/ b = 14 \/ b = 15)
    by lia.
  clear Ha Hb.
  repeat (destruct Ea as [->|Ea]); try subst a;
    repeat (destruct Eb as [->|Eb]); try subst b; reflexivity.
Qed.

(** A pair of hexadecimal digits decodes to the byte whose two digits are
    the lower-case spellings of the pair; a pair with any other character
    is refused. *)
Lemma Decode_pair (p q : byte) :
  if is_hex_digit p && is_hex_digit q
  then exists d, hex.Decode [p; q] = ([d], None)
                 /\ hex.Encode [d] = [hex_lower p; hex_lower q]
  else exists e, hex.Decode [p; q] = ([], Some e).
Proof.
  cbn [hex.Decode].
  destruct (is_hex_digit p) eqn:Ep; cbn [andb].
  - destruct (reverseHexTable_digit p Ep) as [Hp Lp].
    destruct (Z.gtb_spec (hex.reverseHexTable p) 15) as [|_]; [lia|].
    destruct (is_hex_digit q) eqn:Eq.
    + destruct (reverseHexTable_digit q Eq) as [Hq Lq].
      destruct (Z.gtb_spec (hex.reverseHexTable q) 15) as [|_]; [lia|].
      eexists; split; [reflexivity|].
      rewrite Encode_nibbles by assumption. now rewrite Lp, Lq.
    + rewrite (reverseHexTable_other q Eq). cbn. eauto.
  - rewrite (reverseHexTable_other p Ep). cbn. eauto.
Qed.

(** [Decode] accepts exactly the even-length runs of hexadecimal digits,
    and returns the bytes whose digits they are. *)
Lemma Decode_hex_digits (cs : list byte) :
  if Nat.even (List.length cs) && forallb is_hex_digit cs
  then exists data, hex.Decode cs = (data, None)
                    /\ hex.Encode data = map hex_lower cs
  else exists d e, hex.Decode cs = (d, Some e).
Proof.
  induction cs as [|x|p q rest IH] using list_pair_ind.
  - exists []. split; reflexivity.
  - cbn [List.length Nat.even andb hex.Decode].
    destruct (hex.reverseHexTable x >? 15); eauto.
  - rewrite Decode_cons2.
    change (Nat.even (List.length (p :: q :: rest)))
      with (Nat.even (List.length rest)).
    cbn [forallb].
    pose proof (Decode_pair p q) as Hpq.
    destruct (is_hex_digit p && is_hex_digit q) eqn:Epq.
    + destruct Hpq as (d & -> & Hd).
      apply andb_prop in Epq. destruct Epq as [-> ->]. cbn [andb].
      destruct (Nat.even (List.length rest) && forallb is_hex_digit rest).
      * destruct IH as (data & -> & Hdata).
        exists (d :: data). split; [reflexivity|].
        change (hex.Encode (d :: data)) with (hex.Encode [d] ++ hex.Encode data).
        rewrite Hd, Hdata. reflexivity.
      * destruct IH as (d' & e & ->). eauto.
    + destruct Hpq as (e & ->).
      replace (Nat.even (List.length rest)
               && (is_hex_digit p && (is_hex_digit q && forallb is_hex_digit rest)))
        with false; [eauto|].
      rewrite (andb_assoc (is_hex_digit p)), Epq. cbn [andb].
      now rewrite andb_false_r.
Qed.

Lemma Encode_length (d : list byte) :
  List.length (hex.Encode d) = (2 * List.length d)%nat.
Proof. induction d as [|v rest IH]; cbn [hex.Encode List.length]; lia. Qed.

(** ** The binary helper *)

Lemma packBinaryWithPrefix_bytes (b : list byte) :
  packBinaryWithPrefix (VBytes b) = (be32 (uint32 (len b)) ++ b, None).
Proof.
  unfold packBinaryWithPrefix.
  rewrite DecodeString_EncodeToString, PutUint32_make. reflexivity.
Qed.

Lemma packBinaryWithPrefix_string (s : string) :
  if valid_hex s
  then exists data,
      hex.Encode data = map hex_lower (list_byte_of_string s)
      /\ packBinaryWithPrefix (VString s) = (be32 (uint32 (len data)) ++ data, None)
  else exists e, packBinaryWithPrefix (VString s) = ([], Some (HexError e)).
Proof.
  unfold valid_hex, packBinaryWithPrefix, hex.DecodeString.
  pose proof (Decode_hex_digits (list_byte_of_string s)) as H.
  destruct (Nat.even (List.length (list_byte_of_string s))
            && forallb is_hex_digit (list_byte_of_string s)).
  - destruct H as (data & -> & Hdata). exists data.
    rewrite PutUint32_make. split; [exact Hdata | reflexivity].
  - destruct H as (d & e & ->). now exists e.
Qed.

(** Every valid hexadecimal string carries some bytes, half as many as it
    has digits. *)
Lemma valid_hex_payload (s : string) :
  valid_hex s = true ->
  exists data, binary_payload (VString s) data
               /\ 2 * len data = len (list_byte_of_string s).
Proof.
  intros Hv. pose proof (packBinaryWithPrefix_string s) as H. rewrite Hv in H.
  destruct H as (data & Hdata & _). exists data. split; [now split|].
  apply (f_equal (@List.length byte)) in Hdata.
  rewrite Encode_length, length_map in Hdata. unfold len. lia.
Qed.

(** C4. A binary argument (either spelling of the tag) whose value is a
    valid hexadecimal string or a raw byte slice is packed as the number of
    data bytes on four bytes, big-endian, followed by the data bytes and
    nothing else; a raw byte slice is packed as its length followed by the
    slice itself.  Read back, the length field gives the number of data
    bytes whenever that number fits the field, i.e. is below 2^32. *)
Theorem binary_encoding (ty : string) (v : Value) (data : list byte) :
  ty = "binary" \/ ty = "b" ->
  binary_payload v data ->
  exists out,
    PackBOFArguments [arg ty v] = (out, None)
    /\ out = be32 (len data) ++ data
    /\ (forall b, v = VBytes b -> out = be32 (len b) ++ b)
    /\ (len data < 2 ^ 32 -> length_prefixed (len data) data out).
Proof.
  intros Hty Hv.
  assert (Hpack : packBinaryWithPrefix v = (be32 (len data) ++ data, None)).
  { destruct v; try contradiction; cbn [binary_payload] in Hv.
    - destruct Hv as [Hvalid Hdata].
      pose proof (packBinaryWithPrefix_string s) as H. rewrite Hvalid in H.
      destruct H as (data' & Hdata' & ->).
      assert (data' = data) as -> by (apply Encode_injective; congruence).
      now rewrite be32_uint32.
    - subst b. now rewrite packBinaryWithPrefix_bytes, be32_uint32. }
  exists (be32 (len data) ++ data).
  split; [|split; [|split]].
  - rewrite PackBOFArguments_single. cbn [arg Type_ Value_].
    destruct Hty as [-> | ->]; cbn [packer_of String.eqb Ascii.eqb Bool.eqb orb];
      now rewrite Hpack.
  - reflexivity.
  - intros b ->. cbn [binary_payload] in Hv. now subst.
  - intros Hlen. apply length_prefixed_be32. pose proof (len_nonneg data). lia.
Qed.

Lemma binary_encoding_witness :
  PackBOFArguments [arg "binary" (VString "0aFf")]
  = ([x00; x00; x00; x02; x0a; xff], None)
  /\ PackBOFArguments [arg "b" (VBytes [x0a; xff; x00])]
     = ([x00; x00; x00; x03; x0a; xff; x00], None).
Proof.
  split.
  - destruct (binary_encoding "binary" (VString "0aFf") [x0a; xff]) as (out & H & -> & _).
    + now left.
    + split; reflexivity.
    + exact H.
  - destruct (binary_encoding "b" (VBytes [x0a; xff; x00]) [x0a; xff; x00]) as (out & H & -> & _).
    + now right.
    + reflexivity.
    + exact H.
Defined.

(** ** The wide-string helper *)

Lemma utf16le_cons u rest :
  utf16le (u :: rest) = byte_of_Z u :: byte_of_Z (u / 2 ^ 8) :: utf16le rest.
Proof. reflexivity. Qed.

Lemma utf16le_length (units : list Z) :
  List.length (utf16le units) = (2 * List.length units)%nat.
Proof.
  induction units as [|u rest IH]; [reflexivity|].
  rewrite utf16le_cons. cbn [List.length]. rewrite IH. lia.
Qed.

Lemma LittleEndian_PutUint16_here pre r0 r1 rest v :
  binary.LittleEndian.PutUint16 (pre ++ r0 :: r1 :: rest) (List.length pre) v
  = pre ++ byte_of_Z v :: byte_of_Z (v / 2 ^ 8) :: rest.
Proof.
  unfold binary.LittleEndian.PutUint16.
  rewrite store_app_here, Z.shiftr_div_pow2 by lia.
  change (pre ++ byte_of_Z v :: r1 :: rest)
    with (pre ++ [byte_of_Z v] ++ r1 :: rest).
  rewrite app_assoc.
  replace (S (List.length pre)) with (List.length (pre ++ [byte_of_Z v]))
    by (rewrite length_app; simpl; lia).
  rewrite store_app_here, <- app_assoc. reflexivity.
Qed.

(** The loop writes the units one after the other from position [2 * i],
    and leaves the rest of the buffer as it was. *)
Lemma write_units_app (units : list Z) : forall (i : nat) (pre rest : list byte),
  List.length pre = (i * 2)%nat ->
  (2 * List.length units <= List.length rest)%nat ->
  write_units units i (pre ++ rest)
  = pre ++ utf16le units ++ skipn (2 * List.length units) rest.
Proof.
  induction units as [|u us IH]; intros i pre rest Hpre Hrest.
  - reflexivity.
  - cbn [write_units]. cbn [List.length] in Hrest.
    destruct rest as [|r0 [|r1 rest]]; cbn [List.length] in Hrest; try lia.
    rewrite <- Hpre, LittleEndian_PutUint16_here.
    change (pre ++ byte_of_Z u :: byte_of_Z (u / 2 ^ 8) :: rest)
      with (pre ++ [byte_of_Z u; byte_of_Z (u / 2 ^ 8)] ++ rest).
    rewrite app_assoc, IH.
    + rewrite <- app_assoc, utf16le_cons.
      replace (2 * List.length (u :: us))%nat with (S (S (2 * List.length us)))
        by (cbn [List.length]; lia).
      reflexivity.
    + rewrite length_app, Hpre. simpl. lia.
    + lia.
Qed.

Lemma skipn_repeat {A} (x : A) (n m : nat) :
  skipn n (repeat x (n + m)) = repeat x m.
Proof. induction n as [|n IH]; [reflexivity | exact IH]. Qed.

(** The helper on any string: the length of the data in the prefix (as a
    32-bit value), the units, the terminator. *)
Lemma packWideStringWithPrefix_string (s : string) :
  packWideStringWithPrefix (VString s)
  = (be32 (uint32 (2 * (len (utf16_units s) + 1)))
       ++ utf16le (utf16_units s) ++ [x00; x00], None).
Proof.
  unfold packWideStringWithPrefix. fold (utf16_units s).
  set (units := utf16_units s).
  assert (Hmake : make ((len units + 1) * 2)
                  = repeat x00 (2 * List.length units + 2)).
  { unfold make, len. f_equal. lia. }
  assert (Hdata :
    binary.LittleEndian.PutUint16
      (write_units units 0 (make ((len units + 1) * 2)))
      (List.length units * 2) 0
    = utf16le units ++ [x00; x00]).
  { rewrite Hmake.
    assert (Hroom : (2 * List.length units
                     <= List.length (repeat x00 (2 * List.length units + 2)))%nat)
      by (rewrite repeat_length; lia).
    pose proof (write_units_app units 0 [] _ eq_refl Hroom) as Hw.
    cbn [app] in Hw. rewrite Hw, skipn_repeat. cbn [repeat].
    replace (List.length units * 2)%nat with (List.length (utf16le units))
      by (rewrite utf16le_length; lia).
    rewrite LittleEndian_PutUint16_here. reflexivity. }
  rewrite Hdata, PutUint32_make.
  do 4 f_equal. rewrite len_app. unfold len at 1 2.
  rewrite utf16le_length. unfold len. simpl List.length. lia.
Qed.

(** C3. A wide-string argument (either spelling of the tag) with a string
    value is packed as a 4-byte big-endian length, then the UTF-16 code
    units of the string in little-endian order, then the terminator 00 00;
    the length is the number of bytes after the prefix, terminator
    included, i.e. twice the number of code units plus one.  Read back, the
    length field gives that number whenever it fits the field, i.e. is
    below 2^32. *)
Theorem wstring_encoding (ty : string) (s : string) :
  ty = "wstring" \/ ty = "Z" ->
  exists out,
    PackBOFArguments [arg ty (VString s)] = (out, None)
    /\ out = be32 (2 * (len (utf16_units s) + 1))
               ++ utf16le (utf16_units s) ++ [x00; x00]
    /\ len (utf16le (utf16_units s) ++ [x00; x00]) = 2 * (len (utf16_units s) + 1)
    /\ (2 * (len (utf16_units s) + 1) < 2 ^ 32 ->
        length_prefixed (2 * (len (utf16_units s) + 1))
          (utf16le (utf16_units s) ++ [x00; x00]) out).
Proof.
  intros Hty.
  pose proof (len_nonneg (utf16_units s)) as Hpos.
  exists (be32 (2 * (len (utf16_units s) + 1))
            ++ utf16le (utf16_units s) ++ [x00; x00]).
  split; [|split; [|split]].
  - rewrite PackBOFArguments_single. cbn [arg Type_ Value_].
    destruct Hty as [-> | ->]; cbn [packer_of String.eqb Ascii.eqb Bool.eqb orb];
      rewrite packWideStringWithPrefix_string, be32_uint32; reflexivity.
  - reflexivity.
  - rewrite len_app. unfold len at 1 2. rewrite utf16le_length.
    unfold len. simpl List.length. lia.
  - intros Hfit. apply length_prefixed_be32. lia.
Qed.

Lemma wstring_encoding_witness :
  PackBOFArguments [arg "Z" (VString "hi")]
  = ([x00; x00; x00; x06; x68; x00; x69; x00; x00; x00], None).
Proof.
  destruct (wstring_encoding "Z" "hi") as (out & H & -> & _).
  - now right.
  - exact H.
Defined.

(** ** Tags and helpers *)

Lemma packer_of_unrecognized (ty : string) :
  recognized ty = false <-> packer_of ty = None.
Proof.
  unfold recognized, packer_of. cbn [existsb].
  destruct (String.eqb ty "binary"), (String.eqb ty "b"),
    (String.eqb ty "int"), (String.eqb ty "i"),
    (String.eqb ty "short"), (String.eqb ty "s"),
    (String.eqb ty "string"), (String.eqb ty "z"),
    (String.eqb ty "wstring"), (String.eqb ty "Z");
    cbn; split; intros H; first [reflexivity | discriminate H].
Qed.

(** An argument with an unknown tag is refused with [UnsupportedType]. *)
Lemma PackBOFArguments_unrecognized (a : BOFArgument) :
  recognized (Type_ a) = false ->
  PackBOFArguments [a] = ([], Some (UnsupportedType (Type_ a))).
Proof.
  intros H. apply packer_of_unrecognized in H.
  rewrite PackBOFArguments_single, H. reflexivity.
Qed.

(** Each helper accepts exactly the values meeting the requirement of its
    type. *)
Lemma helper_coercible (ty : string) (v : Value) :
  recognized ty = true ->
  exists pack,
    packer_of ty = Some pack
    /\ if coercible ty v
       then exists data, pack v = (data, None)
       else exists c, pack v = ([], Some c).
Proof.
  unfold recognized, packer_of, coercible. cbn [existsb].
  pose proof (packInt_string) as HI. pose proof (packShort_string) as HS.
  pose proof (packBinaryWithPrefix_string) as HB.
  destruct (String.eqb_spec ty "binary") as [->|];
    [|destruct (String.eqb_spec ty "b") as [->|];
      [|destruct (String.eqb_spec ty "int") as [->|];
        [|destruct (String.eqb_spec ty "i") as [->|];
          [|destruct (String.eqb_spec ty "short") as [->|];
            [|destruct (String.eqb_spec ty "s") as [->|];
              [|destruct (String.eqb_spec ty "string") as [->|];
                [|destruct (String.eqb_spec ty "z") as [->|];
                  [|destruct (String.eqb_spec ty "wstring") as [->|];
                    [|destruct (String.eqb_spec ty "Z") as [->|]]]]]]]]]];
    cbn [String.eqb Ascii.eqb Bool.eqb orb andb];
    intros Hrec; try discriminate Hrec; clear Hrec;
    eexists; (split; [reflexivity|]);
    destruct v as [| | | | | | | | |s| |]; cbn [is_some];
    try (eexists; reflexivity).
  all: try (specialize (HB s); destruct (valid_hex s);
            [destruct HB as (data & _ & ->) | destruct HB as (e & ->)];
            eexists; reflexivity).
  all: try (specialize (HI s); destruct (parses_unsigned 32 s);
            [rewrite HI | destruct HI as (e & ->)]; cbn [is_some];
            eexists; reflexivity).
  all: try (specialize (HS s); destruct (parses_unsigned 16 s);
            [rewrite HS | destruct HS as (e & ->)]; cbn [is_some];
            eexists; reflexivity).
  all: try (rewrite packBinaryWithPrefix_bytes; eexists; reflexivity).
Qed.

Lemma PackBOFArguments_not_coercible (a : BOFArgument) :
  recognized (Type_ a) = true ->
  coercible (Type_ a) (Value_ a) = false ->
  exists c, PackBOFArguments [a] = ([], Some (TypeMismatch (Type_ a) c)).
Proof.
  intros Hrec Hco.
  destruct (helper_coercible (Type_ a) (Value_ a) Hrec) as (pack & Hp & H).
  rewrite Hco in H. destruct H as (c & Hc).
  exists c. now rewrite PackBOFArguments_single, Hp, Hc.
Qed.

Lemma PackBOFArguments_coercible (a : BOFArgument) :
  recognized (Type_ a) = true ->
  coercible (Type_ a) (Value_ a) = true ->
  packs a.
Proof.
  intros Hrec Hco.
  destruct (helper_coercible (Type_ a) (Value_ a) Hrec) as (pack & Hp & H).
  rewrite Hco in H. destruct H as (data & Hd).
  unfold packs. now rewrite PackBOFArguments_single, Hp, Hd.
Qed.

(** A list with an argument that does not pack: no bytes, and the error of
    the first such argument. *)
Lemma PackBOFArguments_rejects (pre post : list BOFArgument) (a : BOFArgument) e :
  PackBOFArguments [a] = ([], Some e) ->
  (exists e', PackBOFArguments (pre ++ a :: post) = ([], Some e'))
  /\ (Forall packs pre -> PackBOFArguments (pre ++ a :: post) = ([], Some e)).
Proof.
  intros Ha. rewrite PackBOFArguments_pack_range. split.
  - apply pack_range_some_failure with (a := a).
    + apply in_or_app. right. now left.
    + unfold packs. rewrite Ha. discriminate.
  - intros Hpre. apply pack_range_first_failure; [exact Hpre | now rewrite Ha].
Qed.

(** ** Rejected lists *)

Lemma PackBOFArguments_single_error (x : BOFArgument) e :
  snd (PackBOFArguments [x]) = Some e -> PackBOFArguments [x] = ([], Some e).
Proof.
  rewrite PackBOFArguments_single.
  destruct (packer_of (Type_ x)) as [pack|]; cbn [snd].
  - destruct (pack (Value_ x)) as [data [c|]]; cbn [snd]; congruence.
  - congruence.
Qed.

(** When an earlier argument does not pack, its error is the result. *)
Lemma PackBOFArguments_earlier_failure (pre1 pre2 post : list BOFArgument) x a e :
  Forall packs pre1 ->
  snd (PackBOFArguments [x]) = Some e ->
  PackBOFArguments ((pre1 ++ x :: pre2) ++ a :: post) = ([], Some e).
Proof.
  intros Hpre Hx. rewrite <- app_assoc. cbn [app].
  apply (PackBOFArguments_rejects pre1 (pre2 ++ a :: post) x e);
    [now apply PackBOFArguments_single_error | exact Hpre].
Qed.

(** The earlier of two failures decides the error: here a value that is not
    a number, before an unknown tag. *)
Lemma unknown_tag_after_bad_value :
  recognized "bogus" = false
  /\ PackBOFArguments [arg "int" (VString "x"); arg "bogus" (VInt 0)]
     = ([], Some (TypeMismatch "int"
                    (ParseError (strconv.syntaxError "ParseUint" "x"))))
  /\ ~ (exists ty,
          snd (PackBOFArguments [arg "int" (VString "x"); arg "bogus" (VInt 0)])
          = Some (UnsupportedType ty)).
Proof.
  split; [reflexivity|]. split; [reflexivity|].
  intros [ty H]. vm_compute in H. discriminate H.
Qed.

(** C6, as amended.  A list that contains an argument whose tag is not one of
    the ten tags of the format is rejected, and no byte is returned; the
    error is [UnsupportedType], for that tag, when every argument before it
    packs.  (When an earlier argument does not pack, the error is the one of
    the first argument that does not.) *)
Theorem unsupported_type_rejected (pre post : list BOFArgument) (a : BOFArgument) :
  recognized (Type_ a) = false ->
  (exists e, PackBOFArguments (pre ++ a :: post) = ([], Some e))
  /\ (Forall packs pre ->
      PackBOFArguments (pre ++ a :: post) = ([], Some (UnsupportedType (Type_ a))))
  /\ (forall pre1 x pre2 e,
        pre = pre1 ++ x :: pre2 -> Forall packs pre1 ->
        snd (PackBOFArguments [x]) = Some e ->
        PackBOFArguments (pre ++ a :: post) = ([], Some e)).
Proof.
  intros H. rewrite <- and_assoc. split.
  - apply PackBOFArguments_rejects. now apply PackBOFArguments_unrecognized.
  - intros pre1 x pre2 e -> Hpre Hx. now apply PackBOFArguments_earlier_failure.
Qed.

Lemma unsupported_type_rejected_witness :
  PackBOFArguments
    [arg "int" (VInt 12112); arg "wstring" (VString "C:\Windows");
     arg "float" (VInt 1); arg "int" (VString "x")]
  = ([], Some (UnsupportedType "float")).
Proof.
  apply (unsupported_type_rejected
           [arg "int" (VInt 12112); arg "wstring" (VString "C:\Windows")]
           [arg "int" (VString "x")] (arg "float" (VInt 1))).
  - reflexivity.
  - repeat constructor.
Defined.

(** The same with the two failures in the other order: an unknown tag
    before a value that is not a number. *)
Lemma bad_value_after_unknown_tag :
  recognized "int" = true
  /\ coercible "int" (VString "x") = false
  /\ PackBOFArguments [arg "bogus" (VInt 0); arg "int" (VString "x")]
     = ([], Some (UnsupportedType "bogus"))
  /\ ~ (exists ty c,
          snd (PackBOFArguments [arg "bogus" (VInt 0); arg "int" (VString "x")])
          = Some (TypeMismatch ty c)).
Proof.
  split; [reflexivity|]. split; [reflexivity|]. split; [reflexivity|].
  intros (ty & c & H). vm_compute in H. discriminate H.
Qed.

(** C7, as amended.  A list that contains an argument with a known tag whose
    value does not meet the requirement of the type is rejected, and no byte
    is returned: what was packed before it is dropped.  The error is
    [TypeMismatch], for that argument, when every argument before it packs.
    (When an earlier argument does not pack, the error is the one of the
    first argument that does not.) *)
Theorem type_mismatch_rejected (pre post : list BOFArgument) (a : BOFArgument) :
  recognized (Type_ a) = true ->
  coercible (Type_ a) (Value_ a) = false ->
  exists c,
    PackBOFArguments [a] = ([], Some (TypeMismatch (Type_ a) c))
    /\ (exists e, PackBOFArguments (pre ++ a :: post) = ([], Some e))
    /\ (Forall packs pre ->
        PackBOFArguments (pre ++ a :: post) = ([], Some (TypeMismatch (Type_ a) c)))
    /\ (forall pre1 x pre2 e,
          pre = pre1 ++ x :: pre2 -> Forall packs pre1 ->
          snd (PackBOFArguments [x]) = Some e ->
          PackBOFArguments (pre ++ a :: post) = ([], Some e)).
Proof.
  intros Hrec Hco.
  destruct (PackBOFArguments_not_coercible a Hrec Hco) as (c & Hc).
  exists c. split; [exact Hc|]. rewrite <- and_assoc. split.
  - now apply PackBOFArguments_rejects.
  - intros pre1 x pre2 e -> Hpre Hx. now apply PackBOFArguments_earlier_failure.
Qed.

Lemma type_mismatch_rejected_witness :
  exists c,
    PackBOFArguments [arg "string" (VString "C:\Windows"); arg "binary" (VString "0g")]
    = ([], Some (TypeMismatch "binary" c)).
Proof.
  destruct (type_mismatch_rejected
              [arg "string" (VString "C:\Windows")] []
              (arg "binary" (VString "0g")) eq_refl eq_refl) as (c & _ & _ & H & _).
  exists c. apply H. repeat constructor.
Defined.

(** ** The two spellings of a tag *)

(** The error names the tag as it was written. *)
Lemma alias_changes_the_error :
  In ("i", "int") aliases
  /\ PackBOFArguments [arg "i" VNil]
     = ([], Some (TypeMismatch "i" (InvalidType "int" "<nil>")))
  /\ PackBOFArguments [arg "int" VNil]
     = ([], Some (TypeMismatch "int" (InvalidType "int" "<nil>")))
  /\ PackBOFArguments [arg "i" VNil] <> PackBOFArguments [arg "int" VNil].
Proof.
  split; [now left|]. split; [reflexivity|]. split; [reflexivity|].
  vm_compute. discriminate.
Qed.

(** C9, as amended.  The one-letter tag and the long tag of a type select the
    same helper: for every value, both give the same bytes, both succeed or
    both fail, and when they fail it is with [TypeMismatch] for the same
    cause, each error naming the tag as it was spelled. *)
Theorem aliases_same_helper (short long : string) (v : Value) :
  In (short, long) aliases ->
  fst (PackBOFArguments [arg short v]) = fst (PackBOFArguments [arg long v])
  /\ (snd (PackBOFArguments [arg short v]) = None
      <-> snd (PackBOFArguments [arg long v]) = None)
  /\ (forall c,
        snd (PackBOFArguments [arg short v]) = Some (TypeMismatch short c)
        <-> snd (PackBOFArguments [arg long v]) = Some (TypeMismatch long c))
  /\ (forall ty,
        snd (PackBOFArguments [arg short v]) <> Some (UnsupportedType ty)
        /\ snd (PackBOFArguments [arg long v]) <> Some (UnsupportedType ty)).
Proof.
  intros Hin. rewrite !PackBOFArguments_single. cbn [arg Type_ Value_].
  cbn [aliases In] in Hin.
  repeat (destruct Hin as [Hin|Hin]; [injection Hin as <- <-|]); try contradiction;
    cbn [packer_of String.eqb Ascii.eqb Bool.eqb orb];
    match goal with
    | |- context [match ?p v with _ => _ end] => destruct (p v) as [data [c0|]]
    end;
    cbn [fst snd]; repeat split; intros; congruence.
Qed.

Lemma aliases_same_helper_witness :
  fst (PackBOFArguments [arg "Z" (VString "hi")])
  = fst (PackBOFArguments [arg "wstring" (VString "hi")]).
Proof.
  apply (aliases_same_helper "Z" "wstring" (VString "hi")).
  cbn. tauto.
Defined.

(** ** Numeric coercion *)

(** A decimal string one past the largest value of the width is refused,
    not reduced modulo 2^32 or 2^16. *)
Lemma out_of_range_decimal_string_refused :
  decimal_value "4294967296" = Some (2 ^ 32)
  /\ PackBOFArguments [arg "int" (VString "4294967296")]
     = ([], Some (TypeMismatch "int"
                    (ParseError (strconv.rangeError "ParseUint" "4294967296"))))
  /\ PackBOFArguments [arg "int" (VString "4294967296")]
     <> (be 32 (2 ^ 32 mod 2 ^ 32), None)
  /\ decimal_value "65536" = Some (2 ^ 16)
  /\ PackBOFArguments [arg "short" (VString "65536")]
     = ([], Some (TypeMismatch "short"
                    (ParseError (strconv.rangeError "ParseUint" "65536"))))
  /\ PackBOFArguments [arg "short" (VString "65536")]
     <> (be 16 (2 ^ 16 mod 2 ^ 16), None).
Proof.
  repeat split; try reflexivity; vm_compute; discriminate.
Qed.

Lemma cvt_signed_in_range (bits : Z) (f : spec_float) (t : Z) :
  float64_trunc f = Some t ->
  - 2 ^ (bits - 1) <= t < 2 ^ (bits - 1) ->
  cvt_signed bits f = t.
Proof.
  intros Ht Hr. unfold cvt_signed. rewrite Ht.
  destruct (Z.leb_spec (- 2 ^ (bits - 1)) t); [|lia].
  destruct (Z.ltb_spec t (2 ^ (bits - 1))); [reflexivity | lia].
Qed.

(** C5, as amended.  For the int and short types (either spelling of the
    tag), of width 32 and 16: an [int] value, and a value of the signed type
    of the width, is reduced modulo 2^width, whatever it is, and never
    refused; a value of the unsigned type of the width is taken as it is; a
    [float64] is never refused, and is truncated toward zero when the
    truncated value is in range; a decimal string is accepted when its
    value is in range, and packed as that value, and is refused
    otherwise. *)
Theorem numeric_coercion (ty : string) (w : Z) :
  numeric_width ty = Some w ->
  (forall z, PackBOFArguments [arg ty (VInt z)] = (be w (z mod 2 ^ w), None))
  /\ (forall z,
        PackBOFArguments [arg ty (if w =? 32 then VInt32 z else VInt16 z)]
        = (be w (z mod 2 ^ w), None))
  /\ (forall z,
        PackBOFArguments [arg ty (if w =? 32 then VUint32 z else VUint16 z)]
        = (be w z, None))
  /\ (forall f, exists out, PackBOFArguments [arg ty (VFloat64 f)] = (out, None))
  /\ (forall f t,
        float64_trunc f = Some t -> 0 <= t < 2 ^ w ->
        PackBOFArguments [arg ty (VFloat64 f)] = (be w t, None))
  /\ (forall s,
        match parses_unsigned w s with
        | Some v => PackBOFArguments [arg ty (VString s)] = (be w v, None)
        | None =>
            exists e,
              PackBOFArguments [arg ty (VString s)]
              = ([], Some (TypeMismatch ty (ParseError e)))
        end).
Proof.
  intros Hw.
  assert (Hsingle : forall v,
    PackBOFArguments [arg ty v] =
    match (if w =? 32 then packInt v else packShort v) with
    | (_, Some c) => ([], Some (TypeMismatch ty c))
    | (data, None) => (data, None)
    end).
  { intros v. rewrite PackBOFArguments_single. cbn [arg Type_ Value_].
    destruct (numeric_width_packer ty w Hw) as [[-> ->]|[-> ->]]; reflexivity. }
  repeat split; intros.
  - rewrite Hsingle.
    destruct (numeric_width_packer ty w Hw) as [[-> _]|[-> _]]; cbn [Z.eqb Pos.eqb].
    + unfold packInt. now rewrite PutUint32_make.
    + unfold packShort. now rewrite PutUint16_make.
  - rewrite Hsingle.
    destruct (numeric_width_packer ty w Hw) as [[-> _]|[-> _]]; cbn [Z.eqb Pos.eqb].
    + unfold packInt. now rewrite PutUint32_make.
    + unfold packShort. now rewrite PutUint16_make.
  - rewrite Hsingle.
    destruct (numeric_width_packer ty w Hw) as [[-> _]|[-> _]]; cbn [Z.eqb Pos.eqb].
    + unfold packInt. now rewrite PutUint32_make.
    + unfold packShort. now rewrite PutUint16_make.
  - rewrite Hsingle.
    destruct (numeric_width_packer ty w Hw) as [[-> _]|[-> _]]; cbn [Z.eqb Pos.eqb];
      eexists; reflexivity.
  - rewrite Hsingle.
    destruct (numeric_width_packer ty w Hw) as [[-> _]|[-> _]]; cbn [Z.eqb Pos.eqb].
    + unfold packInt, uint32_of_float64.
      rewrite (cvt_signed_in_range 64 f t) by (assumption || (cbn; lia)).
      now rewrite PutUint32_make, uint32_small.
    + unfold packShort, uint16_of_float64.
      rewrite (cvt_signed_in_range 32 f t) by (assumption || (cbn; lia)).
      now rewrite PutUint16_make, uint16_small.
  - apply pack_numeric_string. exact Hw.
Qed.

Lemma numeric_coercion_witness :
  PackBOFArguments [arg "s" (VInt 65537)] = ([x00; x01], None)
  /\ PackBOFArguments [arg "s" (VInt (-1))] = ([xff; xff], None)
  /\ PackBOFArguments [arg "s" (VFloat64 (S754_finite false 5 (-1)))]
     = ([x00; x02], None).
Proof.
  destruct (numeric_coercion "s" 16 eq_refl) as (Hint & _ & _ & _ & Hfloat & _).
  split; [apply (Hint 65537)|]. split; [apply (Hint (-1))|].
  apply (Hfloat (S754_finite false 5 (-1)) 2); [reflexivity | cbn; lia].
Defined.

(** ** The code units of a string *)

(** An ASCII string has one code unit per character, the character itself. *)
Lemma range_runes_ascii (cs : list byte) :
  forallb (fun c => Z_of_byte c <? 128) cs = true ->
  utf8.range_runes 0 cs = map Z_of_byte cs.
Proof.
  induction cs as [|c rest IH]; [reflexivity|].
  cbn [forallb]. intros H. apply andb_prop in H. destruct H as [Hc Hrest].
  cbn [utf8.range_runes utf8.DecodeRuneInString map].
  unfold utf8.first. rewrite Hc. cbn. now rewrite IH.
Qed.

Lemma Encode_ascii (rs : list Z) :
  Forall (fun r => 0 <= r < 128) rs -> utf16.Encode rs = rs.
Proof.
  induction 1 as [|r rest Hr _ IH]; [reflexivity|].
  cbn [utf16.Encode]. unfold utf16.RuneLen, utf16.surr1.
  destruct (Z.leb_spec 0 r); [|lia]. destruct (Z.ltb_spec r 55296); [|lia].
  cbn [andb orb Z.eqb Pos.eqb]. rewrite IH, uint16_small by lia. reflexivity.
Qed.

Lemma utf16_units_ascii (s : string) :
  forallb (fun c => Z_of_byte c <? 128) (list_byte_of_string s) = true ->
  utf16_units s = map Z_of_byte (list_byte_of_string s).
Proof.
  intros H. unfold utf16_units, runes_of_string.
  rewrite range_runes_ascii by exact H. apply Encode_ascii.
  rewrite forallb_forall in H.
  apply Forall_map, Forall_forall. intros c Hc.
  pose proof (Z_of_byte_range c). specialize (H c Hc). apply Z.ltb_lt in H. lia.
Qed.

(** The conversion on strings that are not ASCII: a two-byte sequence, a
    four-byte sequence (a surrogate pair), a byte that starts no sequence,
    a sequence cut short, and an encoded surrogate. *)
Example utf16_units_samples :
  utf16_units (string_of_list_byte [xc3; xa9]) = [233]
  /\ utf16_units (string_of_list_byte [xf0; x9f; x98; x80]) = [55357; 56832]
  /\ utf16_units (string_of_list_byte [x41; xff; x42]) = [65; 65533; 66]
  /\ utf16_units (string_of_list_byte [xe2; x82]) = [65533; 65533]
  /\ utf16_units (string_of_list_byte [xed; xa0; x80]) = [65533; 65533; 65533].
Proof. repeat split; vm_compute; reflexivity. Qed.

(** The remaining rows of [TestPackBOFArguments]. *)
Example TestPackBOFArguments_rows :
  let W := [x00; x00; x00; x16;
            x43; x00; x3a; x00; x5c; x00; x57; x00; x69; x00;
            x6e; x00; x64; x00; x6f; x00; x77; x00; x73; x00; x00; x00] in
  let N := [x00; x00; x00; x0b;
            x43; x3a; x5c; x57; x69; x6e; x64; x6f; x77; x73; x00] in
  let I := [x00; x00; x2f; x50] in
  let w := arg "wstring" (VString "C:\Windows") in
  let n := arg "string" (VString "C:\Windows") in
  let i := arg "int" (VInt 12112) in
  PackBOFArguments [w; arg "short" (VInt 0)] = (W ++ [x00; x00], None)
  /\ PackBOFArguments [w; n; w; n; i] = (W ++ N ++ W ++ N ++ I, None)
  /\ PackBOFArguments [i; w; i] = (I ++ W ++ I, None)
  /\ PackBOFArguments [i; i; i; w; i] = (I ++ I ++ I ++ W ++ I, None).
Proof. repeat split; vm_compute; reflexivity. Qed.

(** * Further properties of the packer *)

(** ** The narrow-string helper *)

Lemma packStringWithPrefix_string (s : string) :
  packStringWithPrefix (VString s)
  = (be32 (uint32 (len (list_byte_of_string s ++ [x00])))
       ++ list_byte_of_string s ++ [x00], None).
Proof. unfold packStringWithPrefix. now rewrite PutUint32_make. Qed.

(** A narrow-string argument (either spelling of the tag) with a string
    value always packs: the length of the string plus one on four bytes,
    big-endian, then the bytes of the string as they are, then one zero
    byte.  Read back, the length field gives the number of bytes after it
    whenever that number is below 2^32. *)
Theorem string_encoding (ty : string) (s : string) :
  ty = "string" \/ ty = "z" ->
  exists out,
    PackBOFArguments [arg ty (VString s)] = (out, None)
    /\ out = be32 (len (list_byte_of_string s) + 1) ++ list_byte_of_string s ++ [x00]
    /\ len out = len (list_byte_of_string s) + 5
    /\ (len (list_byte_of_string s) + 1 < 2 ^ 32 ->
        length_prefixed (len (list_byte_of_string s) + 1)
          (list_byte_of_string s ++ [x00]) out).
Proof.
  intros Hty.
  pose proof (len_nonneg (list_byte_of_string s)) as Hpos.
  exists (be32 (len (list_byte_of_string s) + 1) ++ list_byte_of_string s ++ [x00]).
  split; [|split; [|split]].
  - rewrite PackBOFArguments_single. cbn [arg Type_ Value_].
    destruct Hty as [-> | ->]; cbn [packer_of String.eqb Ascii.eqb Bool.eqb orb];
      rewrite packStringWithPrefix_string, be32_uint32, len_app; reflexivity.
  - reflexivity.
  - unfold len. rewrite !length_app, be32_length. cbn [List.length]. lia.
  - intros Hfit. apply length_prefixed_be32. lia.
Qed.

Lemma string_encoding_witness :
  PackBOFArguments [arg "z" (VString "ab")]
  = ([x00; x00; x00; x03; x61; x62; x00], None).
Proof.
  destruct (string_encoding "z" "ab") as (out & H & -> & _).
  - now right.
  - exact H.
Defined.

(** ** Success and failure of a list *)

(** The loop ends in one of two ways: an error and no bytes, or every
    argument packed and the buffer extended by each encoding in turn. *)
Lemma pack_range_result (args : list BOFArgument) : forall buff,
  (exists e, pack_range args buff = ([], Some e) /\ ~ Forall packs args)
  \/ (Forall packs args
      /\ pack_range args buff
         = (buff ++ List.concat (map (fun a => fst (PackBOFArguments [a])) args), None)).
Proof.
  induction args as [|a rest IH]; intros buff.
  - right. split; [constructor|]. cbn. now rewrite app_nil_r.
  - destruct (snd (PackBOFArguments [a])) as [e|] eqn:E.
    + left. exists e. split; [now apply pack_range_cons_fail|].
      intros H. inversion H as [|? ? Ha _]; subst. unfold packs in Ha. congruence.
    + rewrite pack_range_cons_ok by exact E.
      destruct (IH (buff ++ fst (PackBOFArguments [a]))) as [(e & He & Hn)|[Hall He]].
      * left. exists e. split; [exact He|].
        intros H. inversion H; subst. contradiction.
      * right. split; [constructor; assumption|].
        rewrite He. cbn [map List.concat]. now rewrite app_assoc.
Qed.

(** An error never comes with bytes, whatever was packed before the
    argument that failed; and a list packs exactly when each of its
    arguments packs alone. *)
Theorem PackBOFArguments_error_has_no_bytes (args : list BOFArgument) :
  (snd (PackBOFArguments args) <> None -> fst (PackBOFArguments args) = [])
  /\ (snd (PackBOFArguments args) = None <-> Forall packs args).
Proof.
  rewrite PackBOFArguments_pack_range.
  destruct (pack_range_result args []) as [(e & -> & Hn)|[Hall ->]]; cbn [fst snd].
  - split; [reflexivity|]. split; [discriminate | contradiction].
  - split; [congruence|]. split; auto.
Qed.

Lemma pack_range_cons (a : BOFArgument) (rest : list BOFArgument) (buff : list byte) :
  pack_range (a :: rest) buff =
  match PackBOFArguments [a] with
  | (_, Some e) => ([], Some e)
  | (data, None) => pack_range rest (buff ++ data)
  end.
Proof.
  rewrite PackBOFArguments_single. cbn [pack_range].
  destruct (packer_of (Type_ a)) as [pack|]; [|reflexivity].
  destruct (pack (Value_ a)) as [data [c|]]; reflexivity.
Qed.

(** The buffer the loop starts from is only a prefix of its result. *)
Lemma pack_range_buff (args : list BOFArgument) : forall buff,
  pack_range args buff =
  match pack_range args [] with
  | (_, Some e) => ([], Some e)
  | (out, None) => (buff ++ out, None)
  end.
Proof.
  induction args as [|a rest IH]; intros buff.
  - cbn. now rewrite app_nil_r.
  - rewrite !pack_range_cons.
    destruct (PackBOFArguments [a]) as [data [e|]]; [reflexivity|].
    rewrite (IH (buff ++ data)), (IH ([] ++ data)).
    destruct (pack_range rest []) as [out [e|]]; [reflexivity|].
    cbn [app]. now rewrite app_assoc.
Qed.

Lemma pack_range_app (xs ys : list BOFArgument) : forall buff,
  pack_range (xs ++ ys) buff =
  match pack_range xs buff with
  | (_, Some e) => ([], Some e)
  | (out, None) => pack_range ys out
  end.
Proof.
  induction xs as [|x xs IH]; intros buff; [reflexivity|].
  cbn [app]. rewrite !pack_range_cons.
  destruct (PackBOFArguments [x]) as [data [e|]]; [reflexivity|]. apply IH.
Qed.

(** Packing a list made of two parts: the two buffers one after the other
    when both parts pack, the error of the first part when it fails, and
    otherwise the error of the second part, with no bytes of the first. *)
Theorem PackBOFArguments_app (xs ys : list BOFArgument) :
  PackBOFArguments (xs ++ ys) =
  match PackBOFArguments xs, PackBOFArguments ys with
  | (_, Some e), _ => ([], Some e)
  | (_, None), (_, Some e) => ([], Some e)
  | (bx, None), (by_, None) => (bx ++ by_, None)
  end.
Proof.
  rewrite !PackBOFArguments_pack_range, pack_range_app.
  destruct (pack_range xs []) as [bx [e|]]; [reflexivity|].
  rewrite pack_range_buff.
  destruct (pack_range ys []) as [by_ [e|]]; reflexivity.
Qed.

(** A list packs exactly when every argument has one of the ten tags and a
    value that meets the requirement of its type. *)
Theorem PackBOFArguments_succeeds_iff (args : list BOFArgument) :
  snd (PackBOFArguments args) = None
  <-> Forall (fun a => recognized (Type_ a) = true
                       /\ coercible (Type_ a) (Value_ a) = true) args.
Proof.
  rewrite PackBOFArguments_pack_range.
  destruct (pack_range_result args []) as [(e & -> & Hn)|[Hall ->]]; cbn [snd].
  - split; [discriminate|]. intros H. exfalso. apply Hn.
    eapply Forall_impl; [|exact H]. intros a [Hr Hc].
    now apply PackBOFArguments_coercible.
  - split; [|reflexivity]. intros _.
    eapply Forall_impl; [|exact Hall]. intros a Ha. unfold packs in Ha.
    destruct (recognized (Type_ a)) eqn:Hr.
    + split; [reflexivity|].
      destruct (coercible (Type_ a) (Value_ a)) eqn:Hc; [reflexivity|].
      destruct (PackBOFArguments_not_coercible a Hr Hc) as (c & Hpc).
      rewrite Hpc in Ha. discriminate.
    + rewrite (PackBOFArguments_unrecognized a Hr) in Ha. discriminate.
Qed.

(** ** The shape of an encoding *)

Lemma packInt_shape (v : Value) (out : list byte) :
  packInt v = (out, None) -> exists i, out = be32 i.
Proof.
  unfold packInt.
  destruct v; try discriminate; try (rewrite PutUint32_make; intros [= <-]; eauto).
  destruct (strconv.ParseUint s 10 32) as [parsed [e|]]; [discriminate|].
  rewrite PutUint32_make. intros [= <-]. eauto.
Qed.

Lemma packShort_shape (v : Value) (out : list byte) :
  packShort v = (out, None) -> exists i, out = be16 i.
Proof.
  unfold packShort.
  destruct v; try discriminate; try (rewrite PutUint16_make; intros [= <-]; eauto).
  destruct (strconv.ParseUint s 10 16) as [parsed [e|]]; [discriminate|].
  rewrite PutUint16_make. intros [= <-]. eauto.
Qed.

Lemma packBinaryWithPrefix_shape (v : Value) (out : list byte) :
  packBinaryWithPrefix v = (out, None) ->
  exists payload, out = be32 (uint32 (len payload)) ++ payload.
Proof.
  unfold packBinaryWithPrefix. destruct v; try discriminate.
  - destruct (hex.DecodeString s) as [hexData [e|]]; [discriminate|].
    rewrite PutUint32_make. intros [= <-]. now exists hexData.
  - destruct (hex.DecodeString (hex.EncodeToString b)) as [hexData [e|]]; [discriminate|].
    rewrite PutUint32_make. intros [= <-]. now exists hexData.
Qed.

Lemma packStringWithPrefix_shape (v : Value) (out : list byte) :
  packStringWithPrefix v = (out, None) ->
  exists payload, out = be32 (uint32 (len payload)) ++ payload.
Proof.
  destruct v; try discriminate.
  rewrite packStringWithPrefix_string. intros [= <-].
  now exists (list_byte_of_string s ++ [x00]).
Qed.

Lemma wide_payload_len (units : list Z) :
  len (utf16le units ++ [x00; x00]) = 2 * (len units + 1).
Proof.
  unfold len. rewrite length_app, utf16le_length. cbn [List.length]. lia.
Qed.

Lemma packWideStringWithPrefix_shape (v : Value) (out : list byte) :
  packWideStringWithPrefix v = (out, None) ->
  exists payload, out = be32 (uint32 (len payload)) ++ payload.
Proof.
  destruct v; try discriminate.
  rewrite packWideStringWithPrefix_string. intros [= <-].
  exists (utf16le (utf16_units s) ++ [x00; x00]). now rewrite wide_payload_len.
Qed.

Lemma packer_of_cases (ty : string) pack :
  packer_of ty = Some pack ->
  (numeric_width ty = Some 32 /\ pack = packInt)
  \/ (numeric_width ty = Some 16 /\ pack = packShort)
  \/ (numeric_width ty = None /\ recognized ty = true
      /\ (pack = packStringWithPrefix \/ pack = packWideStringWithPrefix
          \/ pack = packBinaryWithPrefix)).
Proof.
  unfold packer_of, numeric_width, recognized. cbn [existsb].
  destruct (String.eqb_spec ty "binary") as [->|];
    [|destruct (String.eqb_spec ty "b") as [->|];
      [|destruct (String.eqb_spec ty "int") as [->|];
        [|destruct (String.eqb_spec ty "i") as [->|];
          [|destruct (String.eqb_spec ty "short") as [->|];
            [|destruct (String.eqb_spec ty "s") as [->|];
              [|destruct (String.eqb_spec ty "string") as [->|];
                [|destruct (String.eqb_spec ty "z") as [->|];
                  [|destruct (String.eqb_spec ty "wstring") as [->|];
                    [|destruct (String.eqb_spec ty "Z") as [->|]]]]]]]]]];
    cbn [String.eqb Ascii.eqb Bool.eqb orb andb];
    intros H; try discriminate H; injection H as <-; tauto.
Qed.

(** What one argument packs to: a scalar of the width of its type, or a
    payload behind the four bytes of its length. *)
Lemma encoding_shape (a : BOFArgument) (out : list byte) :
  PackBOFArguments [a] = (out, None) ->
  match numeric_width (Type_ a) with
  | Some w => (w = 32 \/ w = 16) /\ exists i, out = be w i
  | None =>
      recognized (Type_ a) = true
      /\ exists payload, out = be32 (uint32 (len payload)) ++ payload
  end.
Proof.
  rewrite PackBOFArguments_single.
  destruct (packer_of (Type_ a)) as [pack|] eqn:Hp; [|discriminate].
  destruct (pack (Value_ a)) as [data [c|]] eqn:Hd; [discriminate|].
  intros [= <-].
  destruct (packer_of_cases _ _ Hp) as [[Hn Hk]|[[Hn Hk]|[Hn [Hr [Hk|[Hk|Hk]]]]]];
    rewrite Hn; subst pack.
  - split; [now left|]. now apply packInt_shape in Hd.
  - split; [now right|]. now apply packShort_shape in Hd.
  - split; [exact Hr|]. now apply packStringWithPrefix_shape in Hd.
  - split; [exact Hr|]. now apply packWideStringWithPrefix_shape in Hd.
  - split; [exact Hr|]. now apply packBinaryWithPrefix_shape in Hd.
Qed.

Lemma be_length (w i : Z) : w = 32 \/ w = 16 -> len (be w i) = w / 8.
Proof. intros [-> | ->]; reflexivity. Qed.

(** Every encoding takes at least two bytes. *)
Lemma encoding_min_length (a : BOFArgument) (out : list byte) :
  PackBOFArguments [a] = (out, None) -> 2 <= len out.
Proof.
  intros H. apply encoding_shape in H.
  destruct (numeric_width (Type_ a)) as [w|].
  - destruct H as [Hw [i ->]]. rewrite be_length by exact Hw.
    destruct Hw as [-> | ->]; cbn; lia.
  - destruct H as [_ [payload ->]]. rewrite len_app.
    pose proof (len_nonneg payload). change (len (be32 (uint32 (len payload)))) with 4. lia.
Qed.

(** A successful pack has at least two bytes per argument: the buffer is
    empty only for the empty list. *)
Theorem PackBOFArguments_length_lower_bound (args : list BOFArgument) (out : list byte) :
  PackBOFArguments args = (out, None) ->
  2 * len args <= len out /\ (out = [] <-> args = []).
Proof.
  intros H.
  assert (Hlen : 2 * len args <= len out).
  { rewrite PackBOFArguments_pack_range in H.
    destruct (pack_range_result args []) as [(e & He & _)|[Hall He]]; [congruence|].
    rewrite He in H. injection H as <-. cbn [app]. clear He.
    induction Hall as [|a rest Ha _ IH]; [cbn; lia|].
    cbn [map List.concat]. rewrite len_app.
    unfold packs in Ha.
    destruct (PackBOFArguments [a]) as [enc o] eqn:E. cbn [snd] in Ha. subst o.
    apply encoding_min_length in E. cbn [fst].
    unfold len in *. cbn [List.length]. lia. }
  split; [exact Hlen|]. split.
  - intros ->. destruct args; [reflexivity|].
    unfold len in Hlen. cbn [List.length] in Hlen. lia.
  - intros ->. cbn in H. congruence.
Qed.

Lemma PackBOFArguments_length_lower_bound_witness :
  2 * len [arg "s" (VInt 1); arg "s" (VInt 2)] <= len [x00; x01; x00; x02].
Proof.
  apply (PackBOFArguments_length_lower_bound
           [arg "s" (VInt 1); arg "s" (VInt 2)] [x00; x01; x00; x02]).
  reflexivity.
Defined.

(** ** Reading a buffer back *)

Lemma read_scalar_be (w x : Z) :
  w = 32 \/ w = 16 -> read_scalar w (be w x) = x mod 2 ^ w.
Proof.
  intros [-> | ->]; unfold read_scalar, be; cbn [Z.eqb Pos.eqb].
  - apply Uint32_be32.
  - apply Uint16_be16.
Qed.

Lemma pack_numeric_int (ty : string) (w z : Z) :
  numeric_width ty = Some w ->
  PackBOFArguments [arg ty (VInt z)] = (be w (z mod 2 ^ w), None).
Proof.
  intros Hw. rewrite PackBOFArguments_single. cbn [arg Type_ Value_].
  destruct (numeric_width_packer ty w Hw) as [[-> ->]|[-> ->]].
  - unfold packInt. now rewrite PutUint32_make.
  - unfold packShort. now rewrite PutUint16_make.
Qed.

Lemma numeric_width_cases (ty : string) (w : Z) :
  numeric_width ty = Some w -> w = 32 \/ w = 16.
Proof.
  intros H. destruct (numeric_width_packer ty w H) as [[-> _]|[-> _]]; auto.
Qed.

(** A numeric argument has a fixed width, 4 bytes for int and 2 for short,
    whatever the kind of value it was given as; reading the bytes back
    gives a number below 2^width, which is the value modulo 2^width for an
    [int] value and the value itself for a decimal string; two [int] values
    pack to the same bytes exactly when they are equal modulo 2^width. *)
Theorem numeric_read_back (ty : string) (w : Z) :
  numeric_width ty = Some w ->
  (forall v out,
      PackBOFArguments [arg ty v] = (out, None) ->
      len out = w / 8 /\ 0 <= read_scalar w out < 2 ^ w)
  /\ (forall z,
        read_scalar w (fst (PackBOFArguments [arg ty (VInt z)])) = z mod 2 ^ w)
  /\ (forall s v,
        parses_unsigned w s = Some v ->
        read_scalar w (fst (PackBOFArguments [arg ty (VString s)])) = v)
  /\ (forall z1 z2,
        PackBOFArguments [arg ty (VInt z1)] = PackBOFArguments [arg ty (VInt z2)]
        <-> z1 mod 2 ^ w = z2 mod 2 ^ w).
Proof.
  intros Hw. pose proof (numeric_width_cases ty w Hw) as Hc.
  assert (Hpos : 0 < 2 ^ w) by (destruct Hc as [-> | ->]; reflexivity).
  split; [|split; [|split]].
  - intros v out H. apply encoding_shape in H. cbn [arg Type_] in H.
    rewrite Hw in H. destruct H as [_ [i ->]].
    split; [now apply be_length|].
    rewrite read_scalar_be by exact Hc. apply Z.mod_pos_bound. exact Hpos.
  - intros z. rewrite (pack_numeric_int ty w z Hw). cbn [fst].
    rewrite read_scalar_be by exact Hc. apply Z.mod_mod. lia.
  - intros s v Hv. pose proof (pack_numeric_string ty w s Hw) as H.
    rewrite Hv in H. rewrite H. cbn [fst].
    rewrite read_scalar_be by exact Hc.
    apply Z.mod_small. now apply (parses_unsigned_range w s).
  - intros z1 z2. rewrite !(pack_numeric_int ty w _ Hw). split.
    + intros H. apply (f_equal fst) in H. cbn [fst] in H.
      apply (f_equal (read_scalar w)) in H.
      rewrite !read_scalar_be in H by exact Hc.
      now rewrite !Z.mod_mod in H by lia.
    + now intros ->.
Qed.

Lemma numeric_read_back_witness :
  read_scalar 16 (fst (PackBOFArguments [arg "short" (VInt (-2))])) = 65534
  /\ (PackBOFArguments [arg "short" (VInt 65537)]
      = PackBOFArguments [arg "short" (VInt 1)]).
Proof.
  destruct (numeric_read_back "short" 16 eq_refl) as (_ & Hread & _ & Hsame).
  split; [apply (Hread (-2))|]. apply Hsame. reflexivity.
Defined.

(** The narrow-string and the raw-bytes encodings lose nothing: two
    strings, or two byte slices, that pack to the same buffer are equal. *)
Theorem string_and_bytes_encodings_injective :
  (forall ty s1 s2,
      ty = "string" \/ ty = "z" ->
      PackBOFArguments [arg ty (VString s1)] = PackBOFArguments [arg ty (VString s2)] ->
      s1 = s2)
  /\ (forall ty b1 b2,
        ty = "binary" \/ ty = "b" ->
        PackBOFArguments [arg ty (VBytes b1)] = PackBOFArguments [arg ty (VBytes b2)] ->
        b1 = b2).
Proof.
  split.
  - intros ty s1 s2 Hty.
    rewrite !PackBOFArguments_single. cbn [arg Type_ Value_].
    destruct Hty as [-> | ->]; cbn [packer_of String.eqb Ascii.eqb Bool.eqb orb];
      rewrite !packStringWithPrefix_string; intros H;
      apply (f_equal fst) in H; cbn [fst] in H;
      apply (f_equal (skipn 4)) in H; cbn [skipn be32 app] in H;
      apply app_inj_tail in H; destruct H as [H _];
      rewrite <- (string_of_list_byte_of_string s1),
              <- (string_of_list_byte_of_string s2); now rewrite H.
  - intros ty b1 b2 Hty.
    rewrite !PackBOFArguments_single. cbn [arg Type_ Value_].
    destruct Hty as [-> | ->]; cbn [packer_of String.eqb Ascii.eqb Bool.eqb orb];
      rewrite !packBinaryWithPrefix_bytes; intros H;
      apply (f_equal fst) in H; cbn [fst] in H;
      apply (f_equal (skipn 4)) in H; cbn [skipn be32 app] in H; exact H.
Qed.

Lemma string_and_bytes_encodings_injective_witness :
  "ab" = "ab".
Proof.
  apply (proj1 string_and_bytes_encodings_injective "z" "ab" "ab");
    [now right | reflexivity].
Defined.

Lemma firstn_skipn_exact {A : Type} (l r : list A) :
  firstn (List.length l) (l ++ r) = l /\ skipn (List.length l) (l ++ r) = r.
Proof.
  induction l as [|x l [IH1 IH2]]; [split; reflexivity|].
  cbn [List.length firstn skipn app]. now rewrite IH1, IH2.
Qed.

(** One field is cut off the front of a buffer at the end of the
    encoding it starts with, when the payload of a variable-length
    encoding is below 2^32 bytes. *)
Lemma split_field_encoding (a : BOFArgument) (enc rest : list byte) :
  PackBOFArguments [a] = (enc, None) ->
  len enc < 2 ^ 32 + 4 ->
  split_field (Type_ a) (enc ++ rest) = Some (enc, rest).
Proof.
  intros H Hlen. apply encoding_shape in H.
  unfold split_field, field_width.
  destruct (numeric_width (Type_ a)) as [w|].
  - destruct H as [Hw [i ->]].
    rewrite <- (be_length w i Hw), len_app.
    pose proof (len_nonneg rest).
    destruct (Z.leb_spec (len (be w i)) (len (be w i) + len rest)); [|lia].
    unfold len at 1 2. rewrite Nat2Z.id.
    now destruct (firstn_skipn_exact (be w i) rest) as [-> ->].
  - destruct H as [-> [payload ->]].
    pose proof (len_nonneg payload) as Hp. pose proof (len_nonneg rest) as Hr.
    rewrite len_app in Hlen. change (len (be32 (uint32 (len payload)))) with 4 in Hlen.
    assert (Hfit : uint32 (len payload) = len payload) by (apply uint32_small; lia).
    rewrite Hfit.
    assert (Hlen4 : len ((be32 (len payload) ++ payload) ++ rest)
                    = 4 + len payload + len rest).
    { rewrite !len_app. reflexivity. }
    rewrite Hlen4.
    destruct (Z.ltb_spec (4 + len payload + len rest) 4); [lia|].
    change (binary.BigEndian.Uint32 ((be32 (len payload) ++ payload) ++ rest))
      with (binary.BigEndian.Uint32 (be32 (len payload))).
    rewrite Uint32_be32, Hfit.
    destruct (Z.leb_spec (4 + len payload) (4 + len payload + len rest)); [|lia].
    replace (Z.to_nat (4 + len payload))
      with (List.length (be32 (len payload) ++ payload))
      by (rewrite length_app, be32_length; unfold len; lia).
    now destruct (firstn_skipn_exact (be32 (len payload) ++ payload) rest) as [-> ->].
Qed.

(** A consumer that knows the tags finds the arguments again: the buffer
    of a list that packs splits, field by field, into the encodings of its
    arguments, provided no variable-length payload reaches 2^32 bytes (the
    length field would not hold its size). *)
Theorem split_fields_PackBOFArguments (args : list BOFArgument) (out : list byte) :
  PackBOFArguments args = (out, None) ->
  Forall (fun a => len (fst (PackBOFArguments [a])) < 2 ^ 32 + 4) args ->
  split_fields (map Type_ args) out
  = Some (map (fun a => fst (PackBOFArguments [a])) args).
Proof.
  intros H Hsmall. rewrite PackBOFArguments_pack_range in H.
  destruct (pack_range_result args []) as [(e & He & _)|[Hall He]]; [congruence|].
  rewrite He in H. injection H as <-. cbn [app]. clear He.
  induction Hall as [|a rest Ha _ IH]; [reflexivity|].
  inversion Hsmall as [|? ? Hsa Hsrest]; subst.
  cbn [map List.concat split_fields].
  unfold packs in Ha.
  destruct (PackBOFArguments [a]) as [enc o] eqn:E. cbn [snd] in Ha. subst o.
  cbn [fst] in *.
  rewrite (split_field_encoding a enc _ E Hsa), (IH Hsrest). reflexivity.
Qed.

Lemma split_fields_PackBOFArguments_witness :
  split_fields ["z"; "s"; "b"]
    [x00; x00; x00; x03; x61; x62; x00; x00; x07; x00; x00; x00; x01; xff]
  = Some [[x00; x00; x00; x03; x61; x62; x00]; [x00; x07]; [x00; x00; x00; x01; xff]].
Proof.
  apply (split_fields_PackBOFArguments
           [arg "z" (VString "ab"); arg "s" (VInt 7); arg "b" (VString "ff")]).
  - reflexivity.
  - repeat constructor.
Defined.

(** ** Wide strings of ASCII text *)

Lemma utf16le_of_bytes (cs : list byte) :
  utf16le (map Z_of_byte cs) = widen cs.
Proof.
  induction cs as [|c rest IH]; [reflexivity|].
  cbn [map]. rewrite utf16le_cons, IH, byte_of_Z_of_byte.
  pose proof (Z_of_byte_range c) as Hc.
  rewrite (Z.div_small (Z_of_byte c) (2 ^ 8)) by (change (2 ^ 8) with 256; lia).
  reflexivity.
Qed.

Lemma widen_app (l1 l2 : list byte) : widen (l1 ++ l2) = widen l1 ++ widen l2.
Proof. unfold widen. apply flat_map_app. Qed.

(** For a string of ASCII characters, the wide encoding is the narrow one
    with a zero byte after every byte of the payload, terminator included,
    behind a length that is twice the narrow one. *)
Theorem wstring_of_ascii (ty : string) (s : string) :
  ty = "wstring" \/ ty = "Z" ->
  forallb (fun c => Z_of_byte c <? 128) (list_byte_of_string s) = true ->
  PackBOFArguments [arg ty (VString s)]
  = (be32 (2 * (len (list_byte_of_string s) + 1))
       ++ widen (list_byte_of_string s ++ [x00]), None)
  /\ PackBOFArguments [arg "string" (VString s)]
     = (be32 (len (list_byte_of_string s) + 1)
          ++ list_byte_of_string s ++ [x00], None).
Proof.
  intros Hty Hascii. split.
  - rewrite PackBOFArguments_single. cbn [arg Type_ Value_].
    destruct Hty as [-> | ->]; cbn [packer_of String.eqb Ascii.eqb Bool.eqb orb];
      rewrite packWideStringWithPrefix_string, be32_uint32,
        (utf16_units_ascii s Hascii), utf16le_of_bytes, widen_app;
      unfold len; rewrite length_map; reflexivity.
  - rewrite PackBOFArguments_single. cbn [arg Type_ Value_].
    cbn [packer_of String.eqb Ascii.eqb Bool.eqb orb].
    rewrite packStringWithPrefix_string, be32_uint32, len_app. reflexivity.
Qed.

Lemma wstring_of_ascii_witness :
  PackBOFArguments [arg "Z" (VString "ok")]
  = ([x00; x00; x00; x06; x6f; x00; x6b; x00; x00; x00], None).
Proof.
  apply (wstring_of_ascii "Z" "ok"); [now right | reflexivity].
Defined.

(** * The beacon selector *)

(** ** [truncate] *)

Lemma string_length_append (s1 s2 : string) :
  String.length (s1 ++ s2)%string = (String.length s1 + String.length s2)%nat.
Proof. induction s1 as [|c s1 IH]; cbn; [reflexivity | now rewrite IH]. Qed.

Lemma string_length_substring0 (n : nat) : forall s,
  (n <= String.length s)%nat -> String.length (String.substring 0 n s) = n.
Proof.
  induction n as [|n IH]; intros [|c s] H; cbn in *; try reflexivity; try lia.
  rewrite IH by lia. reflexivity.
Qed.

Lemma prefix_substring0 (n : nat) : forall s,
  String.prefix (String.substring 0 n s) s = true.
Proof.
  induction n as [|n IH]; intros [|c s]; cbn; try reflexivity.
  destruct (ascii_dec c c); [apply IH | contradiction].
Qed.

(** With a maximum of at least 2, [truncate] returns a string of at most
    that many bytes: the string itself when it fits, and otherwise exactly
    [maxLen] bytes, the first [maxLen - 2] bytes of the string followed by
    two dots.  Truncating the result again changes nothing. *)
Theorem truncate_bound (s : string) (maxLen : Z) :
  2 <= maxLen ->
  exists r,
    selector.truncate s maxLen = Some r
    /\ Z.of_nat (String.length r) <= maxLen
    /\ (Z.of_nat (String.length s) <= maxLen -> r = s)
    /\ (maxLen < Z.of_nat (String.length s) ->
        Z.of_nat (String.length r) = maxLen
        /\ exists head,
            r = (head ++ "..")%string
            /\ String.prefix head s = true
            /\ Z.of_nat (String.length head) = maxLen - 2)
    /\ selector.truncate r maxLen = Some r.
Proof.
  intros Hmax. unfold selector.truncate at 1.
  destruct (Z.leb_spec (Z.of_nat (String.length s)) maxLen) as [Hfit|Hlong].
  - exists s. repeat split; try assumption; try lia.
    unfold selector.truncate.
    destruct (Z.leb_spec (Z.of_nat (String.length s)) maxLen); [reflexivity | lia].
  - destruct (Z.leb_spec 0 (maxLen - 2)); [|lia].
    destruct (Z.leb_spec (maxLen - 2) (Z.of_nat (String.length s))); [|lia].
    cbn [andb].
    set (head := String.substring 0 (Z.to_nat (maxLen - 2)) s).
    assert (Hhead : String.length head = Z.to_nat (maxLen - 2))
      by (apply string_length_substring0; lia).
    assert (Hlen : Z.of_nat (String.length (head ++ "..")%string) = maxLen)
      by (rewrite string_length_append, Hhead; cbn [String.length]; lia).
    exists (head ++ "..")%string. repeat split; try lia.
    + exists head. repeat split; [apply prefix_substring0 | lia].
    + unfold selector.truncate. rewrite Hlen.
      destruct (Z.leb_spec maxLen maxLen); [reflexivity | lia].
Qed.

Lemma truncate_bound_witness :
  selector.truncate "WORKSTATION-0042" 10 = Some "WORKSTAT..".
Proof.
  destruct (truncate_bound "WORKSTATION-0042" 10 ltac:(lia)) as (r & H & _).
  rewrite H. f_equal. vm_compute in H. congruence.
Defined.

(** [truncate] panics exactly when the maximum is below 2 and the string
    is longer than the maximum; in particular never for the widths 20, 15
    and 10 of the beacon table, and always for a negative maximum. *)
Theorem truncate_panics_iff (s : string) (maxLen : Z) :
  selector.truncate s maxLen = None
  <-> maxLen < 2 /\ maxLen < Z.of_nat (String.length s).
Proof.
  unfold selector.truncate.
  destruct (Z.leb_spec (Z.of_nat (String.length s)) maxLen).
  - split; [discriminate | lia].
  - destruct (Z.leb_spec 0 (maxLen - 2));
      destruct (Z.leb_spec (maxLen - 2) (Z.of_nat (String.length s)));
      cbn [andb]; split; try discriminate; try lia; reflexivity.
Qed.

(** ** [filterBeacons] *)

Section FilterBeacons.

Variable mapLower : string -> string.
Variable clock : nat -> Z.
Variable filter : selector.BeaconFilter.

Local Abbreviation run := (selector.filter_range mapLower clock filter).

(** The beacons kept so far are only a prefix of the result. *)
Lemma filter_range_acc (beacons : list selector.BeaconDto) : forall k filtered,
  run beacons k filtered = filtered ++ run beacons k [].
Proof.
  induction beacons as [|b rest IH]; intros k filtered;
    cbn [selector.filter_range]; [now rewrite app_nil_r|].
  repeat match goal with
         | |- context [if ?c then _ else _] => destruct c
         end; try apply IH;
    rewrite (IH _ (filtered ++ [b])), (IH _ ([] ++ [b])), <- app_assoc; reflexivity.
Qed.

(** One round of the loop. *)
Lemma filter_range_cons (b : selector.BeaconDto) rest k :
  run (b :: rest) k [] =
  if selector.passes mapLower filter b then
    if selector.MinutesAgo filter >? 0 then
      if time.Sub (clock k) (selector.LastCheckinTime b)
         >? int64 (selector.MinutesAgo filter * time.Minute)
      then run rest (S k) []
      else b :: run rest (S k) []
    else b :: run rest k []
  else run rest k [].
Proof.
  unfold selector.passes. cbn [selector.filter_range].
  destruct (negb (String.eqb (selector.fUser filter) "")
            && negb (strings.Contains (strings.ToLower mapLower (selector.User b))
                       (strings.ToLower mapLower (selector.fUser filter))));
    [reflexivity|].
  destruct (negb (String.eqb (selector.fHostname filter) "")
            && negb (strings.Contains (strings.ToLower mapLower (selector.Computer b))
                       (strings.ToLower mapLower (selector.fHostname filter))));
    [reflexivity|].
  destruct (selector.AdminOnly filter && negb (selector.IsAdmin b)); [reflexivity|].
  destruct (selector.AliveOnly filter && negb (selector.Alive b)); [reflexivity|].
  cbn [negb andb].
  destruct (selector.MinutesAgo filter >? 0).
  - destruct (time.Sub (clock k) (selector.LastCheckinTime b)
              >? int64 (selector.MinutesAgo filter * time.Minute)); [reflexivity|].
    apply (filter_range_acc rest (S k) ([] ++ [b])).
  - apply (filter_range_acc rest k ([] ++ [b])).
Qed.

Lemma passes_meets (b : selector.BeaconDto) :
  selector.passes mapLower filter b = true <-> selector.meets mapLower filter b.
Proof.
  unfold selector.passes, selector.meets.
  destruct (String.eqb_spec (selector.fUser filter) "") as [Eu|Eu];
    destruct (String.eqb_spec (selector.fHostname filter) "") as [Eh|Eh];
    destruct (strings.Contains (strings.ToLower mapLower (selector.User b))
                (strings.ToLower mapLower (selector.fUser filter)));
    destruct (strings.Contains (strings.ToLower mapLower (selector.Computer b))
                (strings.ToLower mapLower (selector.fHostname filter)));
    destruct (selector.AdminOnly filter), (selector.IsAdmin b),
      (selector.AliveOnly filter), (selector.Alive b); cbn;
    intuition congruence.
Qed.

Lemma filter_range_subseq (beacons : list selector.BeaconDto) : forall k,
  subseq (run beacons k []) beacons.
Proof.
  induction beacons as [|b rest IH]; intros k; [constructor|].
  rewrite filter_range_cons.
  repeat match goal with
         | |- context [if ?c then _ else _] => destruct c
         end; constructor; apply IH.
Qed.

Lemma filter_range_sound (beacons : list selector.BeaconDto) : forall k b,
  In b (run beacons k []) ->
  selector.meets mapLower filter b
  /\ (0 < selector.MinutesAgo filter ->
      exists j,
        time.Sub (clock j) (selector.LastCheckinTime b)
        <= int64 (selector.MinutesAgo filter * time.Minute)).
Proof.
  induction beacons as [|x rest IH]; intros k b Hin; [contradiction|].
  rewrite filter_range_cons in Hin.
  destruct (selector.passes mapLower filter x) eqn:Ep; [|now apply (IH k)].
  destruct (Z.gtb_spec (selector.MinutesAgo filter) 0) as [Hm|Hm].
  - destruct (Z.gtb_spec (time.Sub (clock k) (selector.LastCheckinTime x))
                (int64 (selector.MinutesAgo filter * time.Minute))) as [Ht|Ht];
      [now apply (IH (S k))|].
    destruct Hin as [<-|Hin]; [|now apply (IH (S k))].
    split; [now apply passes_meets|]. intros _. now exists k.
  - destruct Hin as [<-|Hin]; [|now apply (IH k)].
    split; [now apply passes_meets | lia].
Qed.

Lemma filter_range_complete (beacons : list selector.BeaconDto) : forall k b,
  selector.MinutesAgo filter <= 0 ->
  In b beacons -> selector.meets mapLower filter b ->
  In b (run beacons k []).
Proof.
  induction beacons as [|x rest IH]; intros k b Hm Hin Hb; [contradiction|].
  rewrite filter_range_cons.
  destruct (Z.gtb_spec (selector.MinutesAgo filter) 0) as [|_]; [lia|].
  destruct Hin as [->|Hin].
  - apply passes_meets in Hb. rewrite Hb. now left.
  - destruct (selector.passes mapLower filter x); [right|]; now apply IH.
Qed.

Lemma filter_range_all (beacons : list selector.BeaconDto) : forall k,
  selector.MinutesAgo filter <= 0 ->
  Forall (selector.meets mapLower filter) beacons ->
  run beacons k [] = beacons.
Proof.
  induction beacons as [|x rest IH]; intros k Hm Hall; [reflexivity|].
  inversion Hall as [|? ? Hx Hrest]; subst.
  rewrite filter_range_cons.
  destruct (Z.gtb_spec (selector.MinutesAgo filter) 0) as [|_]; [lia|].
  apply passes_meets in Hx. rewrite Hx. now rewrite IH.
Qed.

End FilterBeacons.

Lemma int64_small (z : Z) : - 2 ^ 63 <= z < 2 ^ 63 -> int64 z = z.
Proof.
  intros H. unfold int64.
  assert (H63 : 2 ^ 63 = 9223372036854775808) by reflexivity.
  assert (H64 : 2 ^ 64 = 18446744073709551616) by reflexivity.
  rewrite H63, H64 in *. rewrite Z.mod_small by lia. lia.
Qed.




Lemma subseq_In {A : Type} (l1 l2 : list A) (x : A) :
  subseq l1 l2 -> In x l1 -> In x l2.
Proof.
  induction 1 as [|y l1 l2 _ IH|y l1 l2 _ IH]; intros Hin.
  - exact Hin.
  - right. now apply IH.
  - destruct Hin as [->|Hin]; [now left | right; now apply IH].
Qed.



(** Every beacon the filter returns is one of the given beacons and meets
    the criteria: its user and host name contain the lower-cased filter
    strings when these are not empty, it is an admin beacon when only
    those are asked for, and alive likewise; and when a number of minutes
    is given (small enough for the product with a minute to fit 64 bits),
    its last check-in was at most that many minutes before some reading of
    the clock. *)
Theorem filterBeacons_sound (mapLower : string -> string) (clock : nat -> Z)
    (beacons : list selector.BeaconDto) (f : selector.BeaconFilter)
    (b : selector.BeaconDto) :
  In b (selector.filterBeacons mapLower clock beacons (Some f)) ->
  In b beacons
  /\ selector.meets mapLower f b
  /\ (0 < selector.MinutesAgo f <= 153722867 ->
      exists j,
        time.Sub (clock j) (selector.LastCheckinTime b)
        <= selector.MinutesAgo f * time.Minute).
Proof.
  intros Hin. cbn [selector.filterBeacons] in Hin.
  split; [|split].
  - eapply subseq_In; [apply filter_range_subseq | exact Hin].
  - now apply (filter_range_sound mapLower clock f beacons 0 b).
  - intros Hm.
    destruct (filter_range_sound mapLower clock f beacons 0 b Hin) as [_ Ht].
    assert (Hpos : 0 < selector.MinutesAgo f) by lia.
    destruct (Ht Hpos) as [j Hj]. exists j.
    assert (H63 : 2 ^ 63 = 9223372036854775808) by reflexivity.
    assert (HM : time.Minute = 60000000000) by reflexivity.
    rewrite int64_small in Hj by (rewrite H63, HM; lia).
    exact Hj.
Qed.

Lemma filterBeacons_sound_witness :
  selector.IsAdmin (selector.mkBeaconDto "b1" "CORP\Admin" "WS01" true true 0) = true.
Proof.
  assert (H := filterBeacons_sound (fun s => s) (fun _ => 0)
    [selector.mkBeaconDto "b0" "CORP\bob" "WS00" false true 0;
     selector.mkBeaconDto "b1" "CORP\Admin" "WS01" true true 0]
    (selector.mkBeaconFilter "ADMIN" "" true false 0)
    (selector.mkBeaconDto "b1" "CORP\Admin" "WS01" true true 0)).
  destruct H as (_ & (_ & _ & Hadmin & _) & _).
  - vm_compute. now left.
  - now apply Hadmin.
Defined.

(** Without a time criterion (minutes zero or negative) the filter returns
    exactly the beacons that meet the other criteria, and the whole list,
    unchanged, when all of them do; a filter with no criterion at all
    returns the list it was given. *)
Theorem filterBeacons_without_minutes (mapLower : string -> string)
    (clock : nat -> Z) (beacons : list selector.BeaconDto)
    (f : selector.BeaconFilter) :
  selector.MinutesAgo f <= 0 ->
  (forall b,
      In b (selector.filterBeacons mapLower clock beacons (Some f))
      <-> In b beacons /\ selector.meets mapLower f b)
  /\ (Forall (selector.meets mapLower f) beacons ->
      selector.filterBeacons mapLower clock beacons (Some f) = beacons)
  /\ (selector.fUser f = "" -> selector.fHostname f = "" ->
      selector.AdminOnly f = false -> selector.AliveOnly f = false ->
      selector.filterBeacons mapLower clock beacons (Some f) = beacons).
Proof.
  intros Hm. cbn [selector.filterBeacons]. split; [|split].
  - intros b. split.
    + intros Hin. split.
      * eapply subseq_In; [apply filter_range_subseq | exact Hin].
      * now apply (filter_range_sound mapLower clock f beacons 0 b).
    + intros [Hin Hb]. now apply filter_range_complete.
  - intros Hall. now apply filter_range_all.
  - intros Hu Hh Ha Hl. apply filter_range_all; [exact Hm|].
    apply Forall_forall. intros b _. unfold selector.meets.
    rewrite Hu, Hh, Ha, Hl. repeat split; intros; congruence.
Qed.

Lemma filterBeacons_without_minutes_witness :
  selector.filterBeacons (fun s => s) (fun _ => 0)
    [selector.mkBeaconDto "b0" "CORP\bob" "WS00" false true 0;
     selector.mkBeaconDto "b1" "CORP\Admin" "WS01" true false 0]
    (Some (selector.mkBeaconFilter "" "" false false 0))
  = [selector.mkBeaconDto "b0" "CORP\bob" "WS00" false true 0;
     selector.mkBeaconDto "b1" "CORP\Admin" "WS01" true false 0].
Proof.
  assert (Hm : selector.MinutesAgo (selector.mkBeaconFilter "" "" false false 0) <= 0)
    by (cbn; lia).
  destruct (filterBeacons_without_minutes (fun s => s) (fun _ => 0)
              [selector.mkBeaconDto "b0" "CORP\bob" "WS00" false true 0;
               selector.mkBeaconDto "b1" "CORP\Admin" "WS01" true false 0]
              (selector.mkBeaconFilter "" "" false false 0) Hm) as (_ & _ & H).
  apply H; reflexivity.
Defined.



(** * The logger *)

Lemma parseLevel_range (level : string) :
  logger.DEBUG <= logger.parseLevel level <= logger.ERROR.
Proof.
  unfold logger.parseLevel, logger.DEBUG, logger.INFO, logger.WARN, logger.ERROR.
  repeat match goal with
         | |- context [String.eqb ?a ?b] => destruct (String.eqb a b)
         end; lia.
Qed.

(** A logger made by [New] writes a message exactly when its level is not
    below the level named by the configuration string.  Whatever that
    string is, error messages are written; debug messages are written only
    for the string "debug"; and a string that is none of "debug", "info",
    "warn", "error" (the match is exact, so also "DEBUG") gives the level
    of "info". *)
Theorem logger_threshold (opens : string -> bool) (quote : string -> string)
    (level : string) (jsonFormat : bool) (file : string) (l : logger.Logger) :
  logger.New opens level jsonFormat file = Some l ->
  (forall tsText tsJSON lvl msg,
      logger.log quote l tsText tsJSON lvl msg = []
      <-> lvl < logger.parseLevel level)
  /\ (forall tsText tsJSON msg,
        logger.log quote l tsText tsJSON logger.ERROR msg <> [])
  /\ (forall tsText tsJSON msg,
        logger.log quote l tsText tsJSON logger.DEBUG msg <> [] <-> level = "debug")
  /\ (level <> "debug" -> level <> "info" -> level <> "warn" -> level <> "error" ->
      logger.level l = logger.INFO).
Proof.
  intros HNew. unfold logger.New in HNew.
  destruct (negb (String.eqb file "") && negb (opens file)); [discriminate|].
  injection HNew as <-.
  assert (Hlog : forall tsText tsJSON lvl msg,
    logger.log quote
      (logger.mkLogger (logger.parseLevel level) jsonFormat
         (negb (String.eqb file "")) (String.eqb file "" && negb jsonFormat))
      tsText tsJSON lvl msg = []
    <-> lvl < logger.parseLevel level).
  { intros. unfold logger.log. cbn [logger.level logger.jsonFormat].
    destruct (Z.ltb_spec lvl (logger.parseLevel level)).
    - tauto.
    - destruct jsonFormat; split; (discriminate || lia). }
  pose proof (parseLevel_range level) as Hr.
  split; [exact Hlog|]. split; [|split].
  - intros tsText tsJSON msg H. apply Hlog in H. lia.
  - intros tsText tsJSON msg. rewrite Hlog.
    unfold logger.parseLevel, logger.DEBUG, logger.INFO, logger.WARN, logger.ERROR.
    destruct (String.eqb_spec level "debug") as [->|Hd].
    + split; [reflexivity | lia].
    + split; [|contradiction]. intros H. exfalso. apply H.
      repeat match goal with
             | |- context [String.eqb ?a ?b] => destruct (String.eqb a b)
             end; lia.
  - intros Hd Hi Hw He. cbn [logger.level]. unfold logger.parseLevel.
    apply String.eqb_neq in Hd, Hi, Hw, He. now rewrite Hd, Hi, Hw, He.
Qed.

Lemma logger_threshold_witness :
  logger.log (fun s => s)
    (logger.mkLogger logger.INFO false false true) "t" "t" logger.DEBUG "m" = [].
Proof.
  apply (logger_threshold (fun _ => true) (fun s => s) "verbose" false ""
           (logger.mkLogger logger.INFO false false true) eq_refl).
  reflexivity.
Defined.

Lemma has_byte_app (c : ascii) (s1 s2 : string) :
  logger.has_byte c (s1 ++ s2)%string
  = logger.has_byte c s1 || logger.has_byte c s2.
Proof.
  induction s1 as [|c' s1 IH]; [reflexivity|].
  cbn [append logger.has_byte]. now rewrite IH, orb_assoc.
Qed.

Lemma has_byte_Output (c : ascii) (s : string) :
  c <> ascii_of_nat 10 -> logger.has_byte c (logger.Output s) = logger.has_byte c s.
Proof.
  intros Hc. unfold logger.Output.
  destruct (logger.ends_with_newline s); [reflexivity|].
  rewrite has_byte_app. cbn [logger.newline logger.has_byte].
  apply Ascii.eqb_neq in Hc. rewrite Hc. cbn [orb]. now rewrite ?orb_false_r.
Qed.

Lemma levelNames_no_escape (lvl : Z) :
  logger.has_byte (ascii_of_nat 27) (logger.levelNames lvl) = false.
Proof.
  unfold logger.levelNames.
  repeat match goal with
         | |- context [Z.eqb ?a ?b] => destruct (Z.eqb a b)
         end; reflexivity.
Qed.

(** Colour is for the terminal only: [New] turns it on exactly when there
    is no log file and the format is not JSON.  A text line of a logger
    that writes to a file has an escape character only if the timestamp or
    the message has one, while a text line of a logger with colour, for
    one of the four levels, always has one. *)
Theorem logger_colour (opens : string -> bool) (quote : string -> string)
    (level : string) (jsonFormat : bool) (file : string) (l : logger.Logger) :
  logger.New opens level jsonFormat file = Some l ->
  (logger.useColor l = true <-> file = "" /\ jsonFormat = false)
  /\ (logger.useColor l = false -> jsonFormat = false ->
      forall tsText tsJSON lvl msg line,
        In line (logger.log quote l tsText tsJSON lvl msg) ->
        logger.has_byte (ascii_of_nat 27) line
        = logger.has_byte (ascii_of_nat 27) tsText
          || logger.has_byte (ascii_of_nat 27) msg)
  /\ (logger.useColor l = true ->
      forall tsText tsJSON lvl msg line,
        logger.DEBUG <= lvl <= logger.ERROR ->
        In line (logger.log quote l tsText tsJSON lvl msg) ->
        logger.has_byte (ascii_of_nat 27) line = true).
Proof.
  intros HNew. unfold logger.New in HNew.
  destruct (negb (String.eqb file "") && negb (opens file)); [discriminate|].
  injection HNew as <-. cbn [logger.useColor].
  assert (Hesc : ascii_of_nat 27 <> ascii_of_nat 10) by discriminate.
  split; [|split].
  - destruct (String.eqb_spec file ""), jsonFormat; cbn; intuition congruence.
  - intros Hc -> tsText tsJSON lvl msg line Hin.
    unfold logger.log in Hin. cbn [logger.level logger.jsonFormat] in Hin.
    destruct (lvl <? logger.parseLevel level); [contradiction|].
    destruct Hin as [<-|[]].
    unfold logger.logText. cbn [logger.useColor]. rewrite Hc.
    rewrite has_byte_Output by exact Hesc.
    rewrite !has_byte_app, levelNames_no_escape. cbn [logger.has_byte].
    cbn. now rewrite ?orb_false_r.
  - intros Hc tsText tsJSON lvl msg line Hlvl Hin.
    apply andb_prop in Hc. destruct Hc as [Hf Hj].
    apply negb_true_iff in Hj. subst jsonFormat.
    unfold logger.log in Hin. cbn [logger.level logger.jsonFormat] in Hin.
    destruct (lvl <? logger.parseLevel level); [contradiction|].
    destruct Hin as [<-|[]].
    unfold logger.logText. cbn [logger.useColor]. rewrite Hf. cbn [andb negb].
    rewrite has_byte_Output by exact Hesc.
    rewrite !has_byte_app.
    assert (Hcol : logger.has_byte (ascii_of_nat 27) (logger.levelColors lvl) = true).
    { unfold logger.levelColors, logger.DEBUG, logger.INFO, logger.WARN, logger.ERROR in *.
      destruct (Z.eqb_spec lvl 0); [reflexivity|].
      destruct (Z.eqb_spec lvl 1); [reflexivity|].
      destruct (Z.eqb_spec lvl 2); [reflexivity|].
      destruct (Z.eqb_spec lvl 3); [reflexivity|]. lia. }
    rewrite Hcol. cbn. now rewrite ?orb_true_r.
Qed.

Lemma logger_colour_witness :
  logger.useColor (logger.mkLogger logger.WARN false true false) = true
  <-> "bot.log" = "" /\ false = false.
Proof.
  apply (logger_colour (fun _ => true) (fun s => s) "warn" false "bot.log"
           (logger.mkLogger logger.WARN false true false) eq_refl).
Defined.

(** * The selection prompt *)

(** Whatever is typed and whatever [Atoi] makes of it, the prompt loop
    never indexes outside the list: it ends with the identifier of a
    beacon of the list, the one at the position typed, or with a
    cancellation, or with a read error when the input runs out; and it has
    printed at most one "Invalid selection" message per line read. *)
Theorem prompt_loop_safe (TrimSpace : string -> string) (Atoi : string -> Z * bool)
    (beacons : list selector.BeaconDto) (lines : list string) :
  forall invalid,
    fst (selector.prompt_loop TrimSpace Atoi beacons lines invalid)
    <> selector.IndexPanic
    /\ (forall bid,
          fst (selector.prompt_loop TrimSpace Atoi beacons lines invalid)
          = selector.Selected bid ->
          exists line n b,
            In line lines
            /\ Atoi (TrimSpace line) = (n, false)
            /\ 1 <= n <= len beacons
            /\ nth_error beacons (Z.to_nat (n - 1)) = Some b
            /\ selector.BID b = bid)
    /\ (invalid
        <= snd (selector.prompt_loop TrimSpace Atoi beacons lines invalid)
        <= invalid + List.length lines)%nat.
Proof.
  induction lines as [|input rest IH]; intros invalid;
    cbn [selector.prompt_loop].
  - cbn [fst snd List.length]. repeat split; try discriminate; lia.
  - cbv zeta.
    destruct (String.eqb (TrimSpace input) "q" || String.eqb (TrimSpace input) "Q").
    { cbn [fst snd List.length]. repeat split; try discriminate; lia. }
    destruct (Atoi (TrimSpace input)) as [n err] eqn:EA.
    destruct err.
    { cbn [orb]. destruct (IH (S invalid)) as (H1 & H2 & H3).
      split; [exact H1|]. split.
      - intros bid Hb. destruct (H2 bid Hb) as (line & m & b & Hin & Hrest).
        exists line, m, b. split; [now right | exact Hrest].
      - cbn [List.length]. lia. }
    cbn [orb].
    destruct (Z.ltb_spec n 1) as [Hlo|Hlo]; cbn [orb].
    { destruct (IH (S invalid)) as (H1 & H2 & H3).
      split; [exact H1|]. split.
      - intros bid Hb. destruct (H2 bid Hb) as (line & m & b & Hin & Hrest).
        exists line, m, b. split; [now right | exact Hrest].
      - cbn [List.length]. lia. }
    destruct (Z.gtb_spec n (len beacons)) as [Hhi|Hhi].
    { destruct (IH (S invalid)) as (H1 & H2 & H3).
      split; [exact H1|]. split.
      - intros bid Hb. destruct (H2 bid Hb) as (line & m & b & Hin & Hrest).
        exists line, m, b. split; [now right | exact Hrest].
      - cbn [List.length]. lia. }
    destruct (nth_error beacons (Z.to_nat (n - 1))) as [b|] eqn:En.
    + cbn [fst snd List.length]. split; [discriminate|]. split; [|lia].
      intros bid [= <-]. exists input, n, b.
      repeat split; try assumption; try lia. now left.
    + exfalso. apply nth_error_None in En. unfold len in Hhi. lia.
Qed.

(** Lines that are neither "q" nor an acceptable number are passed over:
    the loop ends the way it would on the remaining lines, with one more
    message for each of them. *)
Theorem prompt_loop_skips (TrimSpace : string -> string) (Atoi : string -> Z * bool)
    (beacons : list selector.BeaconDto) (bad rest : list string) :
  Forall (fun line =>
            TrimSpace line <> "q" /\ TrimSpace line <> "Q"
            /\ (snd (Atoi (TrimSpace line)) = true
                \/ fst (Atoi (TrimSpace line)) < 1
                \/ len beacons < fst (Atoi (TrimSpace line)))) bad ->
  forall invalid,
    selector.prompt_loop TrimSpace Atoi beacons (bad ++ rest) invalid
    = selector.prompt_loop TrimSpace Atoi beacons rest (invalid + List.length bad).
Proof.
  induction 1 as [|line bad (Hq & HQ & Hbad) _ IH]; intros invalid.
  - cbn [app List.length]. now rewrite Nat.add_0_r.
  - cbn [app selector.prompt_loop List.length]. cbv zeta.
    apply String.eqb_neq in Hq, HQ. rewrite Hq, HQ. cbn [orb].
    destruct (Atoi (TrimSpace line)) as [n err]. cbn [fst snd] in Hbad.
    replace (err || (n <? 1) || (n >? len beacons)) with true.
    + rewrite IH. f_equal. lia.
    + symmetry. destruct Hbad as [->|[Hlo|Hhi]]; [reflexivity| |].
      * apply Z.ltb_lt in Hlo. rewrite Hlo. now rewrite orb_true_r.
      * apply Z.gtb_lt in Hhi. rewrite Hhi. now rewrite orb_true_r.
Qed.

Lemma prompt_loop_skips_witness :
  selector.prompt_loop (fun s => s) (fun s => if String.eqb s "2" then (2, false) else (0, true))
    [selector.mkBeaconDto "b0" "u" "h" false true 0;
     selector.mkBeaconDto "b1" "u" "h" false true 0]
    (["x"; "0"] ++ ["2"]) 0
  = (selector.Selected "b1", 2%nat).
Proof.
  rewrite (prompt_loop_skips (fun s => s)
             (fun s => if String.eqb s "2" then (2, false) else (0, true))).
  - reflexivity.
  - repeat constructor; try discriminate.
Defined.
